(** * TMS9900 assembly formatter: the per-line parser and renderer of
      src/extension.ts, embedded as executable definitions.

    Source text is modelled as a list of 8-bit characters ([list ascii]); the
    development covers ASCII lines, on which [String.prototype.toUpperCase]
    maps a-z to A-Z and the white space of [trim] and of the pattern [\s] is
    TAB, LF, VT, FF, CR and SPACE.  Column settings are JavaScript numbers with
    integer values, modelled as [Z] (negative settings included). *)

From Stdlib Require Import String Ascii ZArith Lia Bool Arith List.
Import ListNotations.

Local Open Scope Z_scope.

Definition str := list ascii.

(** A string literal as a character list. *)
Definition lit (s : string) : str := list_ascii_of_string s.

Module Js.

(** ** The string primitives the formatter calls *)

Definition isWhiteSpace (c : ascii) : bool :=
  let n := N_of_ascii c in
  ((9 <=? n)%N && (n <=? 13)%N) || (n =? 32)%N.

Definition space : ascii := " "%char.

Fixpoint dropWhile (p : ascii -> bool) (s : str) : str :=
  match s with
  | [] => []
  | c :: r => if p c then dropWhile p r else s
  end.

Definition trimStart (s : str) : str := dropWhile isWhiteSpace s.

Definition trimEnd (s : str) : str := rev (dropWhile isWhiteSpace (rev s)).

Definition trim (s : str) : str := trimEnd (trimStart s).

(** [s.startsWith(p)] *)
Fixpoint startsWith (s p : str) {struct p} : bool :=
  match p, s with
  | [], _ => true
  | _ :: _, [] => false
  | a :: p', b :: s' => Ascii.eqb a b && startsWith s' p'
  end.

(** [s.indexOf(c)] for a one-character needle: the first position, or -1. *)
Fixpoint indexOf (s : str) (c : ascii) : Z :=
  match s with
  | [] => -1
  | x :: r =>
      if Ascii.eqb x c then 0
      else let k := indexOf r c in if k <? 0 then -1 else k + 1
  end.

(** [s.substring(a, b)] and [s.substring(a)], for 0 <= a <= b. *)
Definition substring (s : str) (a b : Z) : str :=
  firstn (Z.to_nat (b - a)) (skipn (Z.to_nat a) s).

Definition substringFrom (s : str) (a : Z) : str := skipn (Z.to_nat a) s.

Definition toUpperChar (c : ascii) : ascii :=
  let n := N_of_ascii c in
  if ((97 <=? n)%N && (n <=? 122)%N) then ascii_of_N (n - 32) else c.

Definition toUpperCase (s : str) : str := map toUpperChar s.

(** [s.padEnd(n)]: spaces are appended up to length [n]; nothing is removed. *)
Definition padEnd (s : str) (n : Z) : str :=
  s ++ repeat space (Z.to_nat (n - Z.of_nat (length s))).

(** [tokens.join(sep)] *)
Fixpoint join (sep : str) (l : list str) : str :=
  match l with
  | [] => []
  | [t] => t
  | t :: r => t ++ sep ++ join sep r
  end.

Definition consHead (c : ascii) (l : list str) : list str :=
  match l with
  | [] => [[c]]
  | t :: r => (c :: t) :: r
  end.

(** [s.split(/\s+/)]: the pieces between maximal runs of white space; a run
    at either end leaves an empty piece there, and the empty string gives one
    empty piece.  [inSep] tells that the previous character was white. *)
Fixpoint splitRuns (inSep : bool) (s : str) : list str :=
  match s with
  | [] => [[]]
  | c :: r =>
      if isWhiteSpace c
      then (if inSep then splitRuns true r else [] :: splitRuns true r)
      else consHead c (splitRuns false r)
  end.

Definition splitWs (s : str) : list str := splitRuns false s.

Definition comma : ascii := ","%char.

Definition semicolon : ascii := ";"%char.

(** [s.replace(/,\s*/g, ', ')]: [skip] tells that a comma has just been
    rewritten and the white space after it is being consumed. *)
Fixpoint replaceCommaStar (skip : bool) (s : str) : str :=
  match s with
  | [] => []
  | c :: r =>
      if Ascii.eqb c comma then comma :: space :: replaceCommaStar true r
      else if skip && isWhiteSpace c then replaceCommaStar true r
      else c :: replaceCommaStar false r
  end.

(** [s.replace(/,\s+/g, ', ')]: only a comma followed by white space
    matches. *)
Fixpoint replaceCommaPlus (skip : bool) (s : str) : str :=
  match s with
  | [] => []
  | c :: r =>
      if Ascii.eqb c comma then
        match r with
        | c' :: _ =>
            if isWhiteSpace c' then comma :: space :: replaceCommaPlus true r
            else comma :: replaceCommaPlus false r
        | [] => [comma]
        end
      else if skip && isWhiteSpace c then replaceCommaPlus true r
      else c :: replaceCommaPlus false r
  end.

(** Truthiness of a string: the empty string is the only falsy one. *)
Definition truthy (s : str) : bool :=
  match s with [] => false | _ :: _ => true end.

(** [a === b] on strings. *)
Fixpoint streq (a b : str) : bool :=
  match a, b with
  | [], [] => true
  | x :: a', y :: b' => Ascii.eqb x y && streq a' b'
  | _, _ => false
  end.

(** [set.has(s)] on a constant [Set] of strings. *)
Definition has (set : list str) (s : str) : bool := existsb (streq s) set.

End Js.

Import Js.

#[global] Arguments isWhiteSpace : simpl never.
#[global] Arguments toUpperChar : simpl never.

(** ** Vocabulary tables *)

Definition INSTRUCTIONS : list str := map lit
  [ "A"; "AB"; "ABS"; "AI"; "ANDI"; "B"; "BL"; "BLWP"; "C"; "CB"; "CI"; "CLR";
    "COC"; "CZC"; "DEC"; "DECT"; "DIV"; "IDIV"; "INC"; "INCT"; "INV";
    "JEQ"; "JGT"; "JHE"; "JH"; "JL"; "JLE"; "JLT"; "JMP"; "JNC"; "JNE"; "JNO";
    "JOC"; "JOP";
    "LDCR"; "LI"; "LIMI"; "LREX"; "LWPI"; "MOV"; "MOVB"; "MPY"; "NEG"; "ORI";
    "RTWP"; "S"; "SB"; "SBO"; "SBZ"; "SETO"; "SLA"; "SRA"; "SRC"; "SRL";
    "STCR"; "STST"; "STWP"; "SWPB"; "SZC"; "SZF"; "TB"; "X"; "XOP"; "XOR" ]%string.

Definition DIRECTIVES : list str := map lit
  [ "EQU"; "DATA"; "BYTE"; "TEXT"; "BSS"; "BES"; "ORG"; "END"; "AORG"; "RORG";
    "DORG"; "IDT"; "DEF"; "REF"; "TITL"; "PAGE"; "LIST"; "UNL"; "BCOPY";
    "COPY"; "SAVE" ]%string.

(** ** Data model *)

Record ParsedLine := mkParsedLine {
  label : str;
  instruction : str;
  operands : str;
  comment : str
}.

Record FormatConfig := mkFormatConfig {
  labelColumn : Z;
  instructionColumn : Z;
  operandColumn : Z;
  commentColumn : Z;
  uppercaseInstructions : bool;
  uppercaseDirectives : bool;
  spaceAfterComma : bool
}.

(** The defaults of [getFormatConfig]. *)
Definition defaultConfig : FormatConfig :=
  mkFormatConfig 0 9 18 40 true true true.

(** ** parseLine *)

(** The test of line 91 on the upper-cased first token. *)
Definition isInstOrDir (firstToken : str) : bool :=
  has INSTRUCTIONS firstToken || has DIRECTIVES firstToken
  || startsWith firstToken (lit ".").

(** Lines 103-114: the token at [tokenIndex], if any, is the instruction and
    the tokens after it, joined by single spaces, are the operands. *)
Definition parseRest (lbl : str) (tokenIndex : nat) (tokens : list str)
    (cmt : str) : ParsedLine :=
  let inst :=
    if (tokenIndex <? length tokens)%nat then nth tokenIndex tokens [] else [] in
  let tokenIndex' :=
    if (tokenIndex <? length tokens)%nat then S tokenIndex else tokenIndex in
  let ops :=
    if (tokenIndex' <? length tokens)%nat
    then join [space] (skipn tokenIndex' tokens) else [] in
  mkParsedLine lbl inst ops cmt.

(** Lines 82-114: label detection on the token list. *)
Definition parseTokens (tokens : list str) (cmt : str) : ParsedLine :=
  if (length tokens =? 0)%nat then mkParsedLine [] [] [] cmt
  else
    let firstToken := toUpperCase (nth 0 tokens []) in
    if negb (isInstOrDir firstToken) && (1 <? length tokens)%nat
    then parseRest (nth 0 tokens []) 1 tokens cmt
    else if negb (isInstOrDir firstToken) && (length tokens =? 1)%nat
    then mkParsedLine (nth 0 tokens []) [] [] cmt
    else parseRest [] 0 tokens cmt.

Definition parseLine (line : str) : ParsedLine :=
  if startsWith (trimStart line) (lit "*")
     || startsWith (trimStart line) (lit ";")
  then mkParsedLine [] [] [] (trimStart line)
  else
    let commentIndex := indexOf line semicolon in
    let codePart :=
      if commentIndex >=? 0 then substring line 0 commentIndex else line in
    let cmt :=
      if commentIndex >=? 0 then trim (substringFrom line commentIndex) else [] in
    let codePart := trimEnd codePart in
    if negb (truthy (trim codePart)) then mkParsedLine [] [] [] cmt
    else parseTokens (splitWs (trim codePart)) cmt.

(** ** formatOperands and formatLine *)

Definition formatOperands (ops : str) (config : FormatConfig) : str :=
  if negb (truthy ops) then []
  else if spaceAfterComma config
  then replaceCommaPlus false (replaceCommaStar false ops)
  else ops.

(** Lines 163-170: the casing decision on the instruction token. *)
Definition caseInstruction (inst : str) (config : FormatConfig) : str :=
  let instUpper := toUpperCase inst in
  if has INSTRUCTIONS instUpper && uppercaseInstructions config then instUpper
  else if has DIRECTIVES instUpper && uppercaseDirectives config then instUpper
  else inst.

(** Lines 149-159: the label field, which ends where the instruction
    starts. *)
Definition labelField (parsed : ParsedLine) (config : FormatConfig) : str :=
  if truthy (label parsed) then
    if Z.of_nat (length (label parsed)) >=? instructionColumn config
    then label parsed ++ [space]
    else padEnd (label parsed) (instructionColumn config)
  else padEnd [] (instructionColumn config).

(** Lines 147-186: label, instruction and operands, before the comment is
    placed.  Both branches of the test of line 173 append the instruction. *)
Definition renderCode (parsed : ParsedLine) (config : FormatConfig) : str :=
  let formatted := labelField parsed config in
  let formatted :=
    if truthy (instruction parsed)
    then formatted ++ caseInstruction (instruction parsed) config
    else formatted in
  if truthy (operands parsed)
  then (trimEnd formatted ++ [space]) ++ formatOperands (operands parsed) config
  else formatted.

(** Lines 188-199: the comment is placed and the result right-trimmed. *)
Definition placeComment (formatted : str) (parsed : ParsedLine)
    (config : FormatConfig) : str :=
  let formatted :=
    if truthy (comment parsed) then
      let currentLength := Z.of_nat (length (trimEnd formatted)) in
      if currentLength <? commentColumn config
      then padEnd (trimEnd formatted) (commentColumn config) ++ comment parsed
      else trimEnd formatted ++ lit "  " ++ comment parsed
    else formatted in
  trimEnd formatted.

Definition formatLine (line : str) (config : FormatConfig) : str :=
  if negb (truthy (trim line)) then []
  else
    let parsed := parseLine line in
    if truthy (comment parsed) && negb (truthy (label parsed))
       && negb (truthy (instruction parsed)) && negb (truthy (operands parsed))
    then
      if streq (trimStart line) line then comment parsed
      else padEnd [] (commentColumn config) ++ comment parsed
    else placeComment (renderCode parsed config) parsed config.

(** ** The document driver *)

(** An edit replaces the whole of one line: its index and the new text. *)
Definition TextEdit := (nat * str)%type.

(** The loop of [provideDocumentFormattingEdits] from line [i] on: [token k]
    is the value of [isCancellationRequested] at the poll that precedes
    line [k]. *)
Fixpoint formatFrom (token : nat -> bool) (config : FormatConfig)
    (i : nat) (lines : list str) : list TextEdit :=
  match lines with
  | [] => []
  | text :: rest =>
      if token i then []
      else
        let formatted := formatLine text config in
        if negb (streq formatted text)
        then (i, formatted) :: formatFrom token config (S i) rest
        else formatFrom token config (S i) rest
  end.

Definition provideDocumentFormattingEdits (document : list str)
    (config : FormatConfig) (token : nat -> bool) : list TextEdit :=
  formatFrom token config 0%nat document.


(** ** The range driver *)

(** [document.lineAt(i)]: the host raises an error for a line number past the
    end of the document; [None] stands for that error. *)
Definition lineAt (document : list str) (i : nat) : option str :=
  nth_error document i.

(** The loop of [provideDocumentRangeFormattingEdits] at line [i] with [n]
    lines still to visit; [token k] is the value of
    [isCancellationRequested] at the poll that precedes line [k].  An error
    of [lineAt] ends the call without a result. *)
Fixpoint rangeFrom (token : nat -> bool) (config : FormatConfig)
    (document : list str) (i n : nat) : option (list TextEdit) :=
  match n with
  | O => Some []
  | S n' =>
      if token i then Some []
      else
        match lineAt document i with
        | None => None
        | Some text =>
            let formatted := formatLine text config in
            match rangeFrom token config document (S i) n' with
            | None => None
            | Some rest =>
                Some (if negb (streq formatted text)
                      then (i, formatted) :: rest else rest)
            end
        end
  end.

(** The loop runs for [i = startLine], ..., [endLine]: [endLine + 1 -
    startLine] rounds, none when the range is reversed. *)
Definition provideDocumentRangeFormattingEdits (document : list str)
    (startLine endLine : nat) (config : FormatConfig) (token : nat -> bool)
    : option (list TextEdit) :=
  rangeFrom token config document startLine (S endLine - startLine).

(** ** The edit list in the words of the driver's contract *)

(** The lines of a document with their indices, from index [i] on. *)
Definition indexedFrom (i : nat) (document : list str) : list (nat * str) :=
  combine (seq i (length document)) document.

Definition changed (config : FormatConfig) (entry : nat * str) : bool :=
  negb (streq (formatLine (snd entry) config) (snd entry)).

(** One pair (index, formatted text) for each of the first [k] lines that
    formatting changes, in line order. *)
Definition editsOfPrefix (config : FormatConfig) (k : nat)
    (document : list str) : list TextEdit :=
  map (fun e => (fst e, formatLine (snd e) config))
      (filter (changed config) (firstn k (indexedFrom 0 document))).

(** Cancellation is signalled after [k] lines: the polls before lines
    0 .. k-1 see no request and the poll before line [k], when the document
    has such a line, sees one. *)
Definition cancelledAfter (k : nat) (document : list str)
    (token : nat -> bool) : Prop :=
  (forall i, (i < k)%nat -> token i = false) /\
  ((k < length document)%nat -> token k = true).

(** The token of a run that is never cancelled. *)
Definition neverCancelled : nat -> bool := fun _ => false.

(** ** Vocabulary of the statements *)

(** A string of white space only (the blank lines of the formatter). *)
Definition allWs (s : str) : bool := forallb isWhiteSpace s.

(** The last character exists and is not white. *)
Fixpoint endsNonWs (s : str) : bool :=
  match s with
  | [] => false
  | [c] => negb (isWhiteSpace c)
  | _ :: r => endsNonWs r
  end.

(** The first character exists and is white. *)
Definition startsWs (s : str) : bool :=
  match s with
  | c :: _ => isWhiteSpace c
  | [] => false
  end.

(** A token: non-empty and free of white space. *)
Definition isToken (t : str) : bool :=
  truthy t && forallb (fun c => negb (isWhiteSpace c)) t.

(** The maximal runs of non-white characters of a string, in order. *)
Fixpoint words (s : str) : list str :=
  match s with
  | [] => []
  | c :: r =>
      if isWhiteSpace c then words r
      else match r with
           | [] => [[c]]
           | c' :: _ =>
               if isWhiteSpace c' then [c] :: words r
               else consHead c (words r)
           end
  end.

(** [t] occurs in [s] as a contiguous run of characters. *)
Definition occursIn (t s : str) : Prop :=
  exists pre post, s = pre ++ t ++ post.

(** Every white character of [s] is a single space that follows a character
    which is not white; [prevWs] tells that the text before [s] ends in white
    space (or that [s] starts the text). *)
Fixpoint singleSpaced (prevWs : bool) (s : str) : bool :=
  match s with
  | [] => true
  | c :: r =>
      if isWhiteSpace c
      then negb prevWs && Ascii.eqb c space && singleSpaced true r
      else singleSpaced false r
  end.

(** The three shapes of a parsed line that has code: a bare label, a label
    with an instruction and operands, and an instruction with operands. *)
Inductive parsedShape : ParsedLine -> Prop :=
| shapeLabelOnly (t cmt : str) :
    isToken t = true -> isInstOrDir (toUpperCase t) = false ->
    parsedShape (mkParsedLine t [] [] cmt)
| shapeLabelled (t u : str) (r : list str) (cmt : str) :
    isToken t = true -> isInstOrDir (toUpperCase t) = false ->
    isToken u = true -> Forall (fun x => isToken x = true) r ->
    parsedShape (mkParsedLine t u (join [space] r) cmt)
| shapePlain (t : str) (r : list str) (cmt : str) :
    isToken t = true -> isInstOrDir (toUpperCase t) = true ->
    Forall (fun x => isToken x = true) r ->
    parsedShape (mkParsedLine [] t (join [space] r) cmt).

(** What [parseLine] reads back from the rendering of [parsed]. *)
Definition reparsed (parsed : ParsedLine) (config : FormatConfig) : ParsedLine :=
  mkParsedLine (label parsed)
    (caseInstruction (instruction parsed) config)
    (join [space] (words (formatOperands (operands parsed) config)))
    (comment parsed).

(** The tokens of the rendered code portion. *)
Definition renderedTokens (parsed : ParsedLine) (config : FormatConfig)
    : list str :=
  (if truthy (label parsed) then [label parsed] else [])
  ++ (if truthy (instruction parsed)
      then [caseInstruction (instruction parsed) config] else [])
  ++ words (formatOperands (operands parsed) config).

(** No semicolon in the text. *)
Definition semiFree (s : str) : bool :=
  forallb (fun c => negb (Ascii.eqb c semicolon)) s.

(** The test of line 64: the first character that is not white is [*] or
    a semicolon. *)
Definition commentLed (s : str) : bool :=
  startsWith (trimStart s) (lit "*") || startsWith (trimStart s) (lit ";").

Definition isCommentChar (c : ascii) : bool :=
  Ascii.eqb "*"%char c || Ascii.eqb ";"%char c.

(** The first character of the first token of a token list is a comment
    character. *)
Definition commentLedTokens (tokens : list str) : bool :=
  match tokens with
  | (c :: _) :: _ => isCommentChar c
  | _ => false
  end.

(** The comment field of a line with code: empty, or a trimmed text that a
    semicolon opens. *)
Definition inlineComment (cmt : str) : Prop :=
  cmt = [] \/ ((exists r, cmt = semicolon :: r) /\ endsNonWs cmt = true).

(** The text without its white characters. *)
Definition stripWs (s : str) : str :=
  filter (fun c => negb (isWhiteSpace c)) s.

(** Every comma is followed by one space and then by a character that is
    not white, or by the end of the text. *)
Fixpoint commaSpaced (s : str) : bool :=
  match s with
  | [] => true
  | c :: r =>
      (if Ascii.eqb c comma
       then match r with
            | x :: r' => Ascii.eqb x space && negb (startsWs r')
            | [] => false
            end
       else true)
      && commaSpaced r
  end.

(** The line number of an edit lies in [startLine .. endLine]. *)
Definition inRange (startLine endLine : nat) (e : TextEdit) : bool :=
  (startLine <=? fst e)%nat && (fst e <=? endLine)%nat.

(** * Properties *)

(** ** Basic facts on the string primitives *)

Lemma streq_eq (a b : str) : streq a b = true <-> a = b.
Proof.
  revert b; induction a as [|x a IH]; intros [|y b]; simpl; split;
    try congruence; try reflexivity.
  - intros H. apply andb_true_iff in H as [H1 H2].
    apply Ascii.eqb_eq in H1. apply IH in H2. congruence.
  - intros H. injection H as -> ->. rewrite Ascii.eqb_refl. simpl.
    now apply IH.
Qed.

Lemma streq_refl (a : str) : streq a a = true.
Proof. now apply streq_eq. Qed.

Lemma streq_neq (a b : str) : streq a b = false <-> a <> b.
Proof.
  split.
  - intros H E. apply streq_eq in E. congruence.
  - intros H. destruct (streq a b) eqn:E; [|reflexivity].
    apply streq_eq in E. contradiction.
Qed.

Lemma truthy_false (s : str) : truthy s = false <-> s = [].
Proof. destruct s; simpl; split; congruence. Qed.

Lemma truthy_true (s : str) : truthy s = true <-> s <> [].
Proof. destruct s; simpl; split; congruence. Qed.

(** ** Upper-casing and the vocabulary tables *)

Lemma toUpperChar_dot (c : ascii) :
  Ascii.eqb "."%char (toUpperChar c) = Ascii.eqb "."%char c.
Proof. destruct c as [[] [] [] [] [] [] [] []]; reflexivity. Qed.

Lemma startsWith_dot_upper (s : str) :
  startsWith (toUpperCase s) (lit ".") = startsWith s (lit ".").
Proof.
  destruct s as [|c r]; [reflexivity|].
  unfold toUpperCase, lit. cbn [map list_ascii_of_string startsWith].
  now rewrite toUpperChar_dot.
Qed.

(** No word of a table that holds no dot-led word equals a dot-led token. *)
Lemma has_dot_led (set : list str) (s : str) :
  forallb (fun m => negb (startsWith m (lit "."))) set = true ->
  startsWith s (lit ".") = true ->
  has set s = false.
Proof.
  intros Hset Hs. unfold has. induction set as [|m set IH]; [reflexivity|].
  simpl in *. apply andb_true_iff in Hset as [Hm Hset].
  rewrite (IH Hset), orb_false_r.
  apply streq_neq. intros ->. rewrite Hs in Hm. discriminate.
Qed.

Lemma INSTRUCTIONS_no_dot :
  forallb (fun m => negb (startsWith m (lit "."))) INSTRUCTIONS = true.
Proof. reflexivity. Qed.

Lemma DIRECTIVES_no_dot :
  forallb (fun m => negb (startsWith m (lit "."))) DIRECTIVES = true.
Proof. reflexivity. Qed.

(** ** The parser never takes a vocabulary word or a dot-led token as label *)


Lemma parseTokens_label (tokens : list str) (cmt : str) :
  label (parseTokens tokens cmt) <> [] ->
  isInstOrDir (toUpperCase (label (parseTokens tokens cmt))) = false.
Proof.
  unfold parseTokens.
  destruct (length tokens =? 0)%nat; [simpl; congruence|].
  destruct (isInstOrDir (toUpperCase (nth 0 tokens []))) eqn:E; simpl.
  - congruence.
  - destruct (1 <? length tokens)%nat; simpl; [now rewrite E|].
    destruct (length tokens =? 1)%nat; simpl; [now rewrite E|congruence].
Qed.

Lemma parseLine_label_cases (line : str) :
  label (parseLine line) = [] \/
  exists tokens cmt, label (parseLine line) = label (parseTokens tokens cmt).
Proof.
  unfold parseLine.
  destruct (startsWith (trimStart line) (lit "*")
            || startsWith (trimStart line) (lit ";")); [now left|].
  cbv zeta.
  match goal with |- context [if negb ?b then _ else _] => destruct b end;
    simpl negb; cbv iota; [right; eauto | now left].
Qed.

(** C10. Whenever [parseLine] returns a non-empty label, the upper-cased
    label belongs neither to INSTRUCTIONS nor to DIRECTIVES, and the label
    does not begin with a dot. *)
Theorem parseLine_label_not_vocabulary (line : str) :
  label (parseLine line) <> [] ->
  has INSTRUCTIONS (toUpperCase (label (parseLine line))) = false /\
  has DIRECTIVES (toUpperCase (label (parseLine line))) = false /\
  startsWith (label (parseLine line)) (lit ".") = false.
Proof.
  intros Hne.
  destruct (parseLine_label_cases line) as [E | (tokens & cmt & E)];
    [contradiction|].
  rewrite E in *. apply parseTokens_label in Hne.
  unfold isInstOrDir in Hne.
  apply orb_false_iff in Hne as [Hne Hdot].
  apply orb_false_iff in Hne as [Hi Hd].
  rewrite startsWith_dot_upper in Hdot. auto.
Qed.

Lemma parseLine_label_not_vocabulary_witness :
  label (parseLine (lit "loop mov r1,r2 ;copy")) = lit "loop" /\
  has INSTRUCTIONS (toUpperCase (lit "loop")) = false /\
  has DIRECTIVES (toUpperCase (lit "loop")) = false /\
  startsWith (lit "loop") (lit ".") = false.
Proof.
  split; [reflexivity|].
  apply (parseLine_label_not_vocabulary (lit "loop mov r1,r2 ;copy")).
  vm_compute. discriminate.
Defined.

(** ** The worked example of the default configuration *)

(** C2, as the code behaves.  Under the default configuration the line
    [loop mov r1,r2 ;copy] parses into label [loop], instruction [mov],
    operands [r1,r2] and comment [;copy], and is rendered as
    [loop     MOV r1, r2] followed by 21 spaces and [;copy]: forty characters
    precede the comment. *)
Theorem example_loop_mov :
  parseLine (lit "loop mov r1,r2 ;copy")
    = mkParsedLine (lit "loop") (lit "mov") (lit "r1,r2") (lit ";copy") /\
  formatLine (lit "loop mov r1,r2 ;copy") defaultConfig
    = lit "loop     MOV r1, r2" ++ repeat space 21 ++ lit ";copy" /\
  length (lit "loop     MOV r1, r2" ++ repeat space 21) = 40%nat /\
  skipn 40 (formatLine (lit "loop mov r1,r2 ;copy") defaultConfig)
    = lit ";copy".
Proof. repeat split; reflexivity. Qed.

(** C2, as the specification writes the rendered text: its literal holds
    only 20 spaces before [;copy], one fewer than the renderer emits. *)
Lemma example_loop_mov_spec_literal_differs :
  formatLine (lit "loop mov r1,r2 ;copy") defaultConfig
    <> lit "loop     MOV r1, r2                    ;copy".
Proof. vm_compute. discriminate. Qed.

(** ** Dot-led tokens *)

(** The label test of the parser takes every dot-led token as
    instruction-or-directive; the casing step of the renderer looks the token
    up in the two tables only, which hold no dot-led word, and returns it as
    written. *)
Lemma dot_token_two_call_sites (tok : str) (config : FormatConfig) :
  startsWith tok (lit ".") = true ->
  isInstOrDir (toUpperCase tok) = true /\
  caseInstruction tok config = tok.
Proof.
  intros Hdot.
  assert (Hup : startsWith (toUpperCase tok) (lit ".") = true)
    by now rewrite startsWith_dot_upper.
  split.
  - unfold isInstOrDir. rewrite Hup. now rewrite orb_true_r.
  - unfold caseInstruction.
    rewrite (has_dot_led _ _ INSTRUCTIONS_no_dot Hup).
    now rewrite (has_dot_led _ _ DIRECTIVES_no_dot Hup).
Qed.

(** C5 at the line [.data 1] under the default configuration, where
    [uppercaseDirectives] is enabled.  The parser classes the dot-led
    mnemonic as directive-like: no label is taken and [.data] is the
    instruction.  The renderer does not: its casing step leaves [.data] in
    lower case, and the line is rendered with [.data], not [.DATA]. *)
Theorem dot_token_not_uppercased :
  isInstOrDir (toUpperCase (lit ".data")) = true /\
  parseLine (lit ".data 1") = mkParsedLine [] (lit ".data") (lit "1") [] /\
  uppercaseDirectives defaultConfig = true /\
  caseInstruction (instruction (parseLine (lit ".data 1"))) defaultConfig
    = lit ".data" /\
  caseInstruction (instruction (parseLine (lit ".data 1"))) defaultConfig
    <> toUpperCase (instruction (parseLine (lit ".data 1"))) /\
  formatLine (lit ".data 1") defaultConfig = lit "         .data 1" /\
  formatLine (lit ".data 1") defaultConfig <> lit "         .DATA 1".
Proof. repeat split; try reflexivity; vm_compute; discriminate. Qed.

(** ** The renderer ignores [operandColumn] *)

(** C9. Two configurations that agree on every field but [operandColumn]
    render every line alike. *)
Theorem formatLine_operandColumn_irrelevant (line : str) (c1 c2 : FormatConfig) :
  labelColumn c1 = labelColumn c2 ->
  instructionColumn c1 = instructionColumn c2 ->
  commentColumn c1 = commentColumn c2 ->
  uppercaseInstructions c1 = uppercaseInstructions c2 ->
  uppercaseDirectives c1 = uppercaseDirectives c2 ->
  spaceAfterComma c1 = spaceAfterComma c2 ->
  formatLine line c1 = formatLine line c2.
Proof.
  destruct c1 as [l1 i1 o1 k1 ui1 ud1 sc1], c2 as [l2 i2 o2 k2 ui2 ud2 sc2].
  simpl. intros -> -> -> -> -> ->.
  reflexivity.
Qed.

Lemma formatLine_operandColumn_irrelevant_witness :
  formatLine (lit "loop mov r1,r2 ;copy") (mkFormatConfig 0 9 18 40 true true true)
  = formatLine (lit "loop mov r1,r2 ;copy") (mkFormatConfig 0 9 77 40 true true true).
Proof.
  apply (formatLine_operandColumn_irrelevant (lit "loop mov r1,r2 ;copy")
           (mkFormatConfig 0 9 18 40 true true true)
           (mkFormatConfig 0 9 77 40 true true true)); reflexivity.
Defined.

(** ** Whole-line comments *)

(** C4. A non-blank line that parses into a comment and nothing else is
    rendered as that comment, unchanged, when the raw line has no leading
    white space, and otherwise as [commentColumn] spaces followed by the
    comment. *)
Theorem formatLine_whole_comment (line : str) (config : FormatConfig) :
  trim line <> [] ->
  comment (parseLine line) <> [] ->
  label (parseLine line) = [] ->
  instruction (parseLine line) = [] ->
  operands (parseLine line) = [] ->
  (trimStart line = line ->
     formatLine line config = comment (parseLine line)) /\
  (trimStart line <> line ->
     formatLine line config
       = repeat space (Z.to_nat (commentColumn config)) ++ comment (parseLine line)).
Proof.
  intros Hnb Hc Hl Hi Ho. unfold formatLine.
  apply truthy_true in Hnb, Hc. rewrite Hnb, Hc, Hl, Hi, Ho. simpl.
  split; intros H.
  - apply streq_eq in H. now rewrite H.
  - apply streq_neq in H. rewrite H. unfold padEnd. simpl.
    now rewrite Z.sub_0_r.
Qed.

Lemma formatLine_whole_comment_witness :
  formatLine (lit "* full comment") defaultConfig = lit "* full comment" /\
  formatLine (lit "   * full comment") defaultConfig
    = repeat space 40 ++ lit "* full comment".
Proof.
  split.
  - apply (formatLine_whole_comment (lit "* full comment") defaultConfig);
      try reflexivity; vm_compute; discriminate.
  - apply (formatLine_whole_comment (lit "   * full comment") defaultConfig);
      try reflexivity; vm_compute; discriminate.
Defined.

(** ** The document driver under cancellation *)

Lemma indexedFrom_cons (i : nat) (text : str) (rest : list str) :
  indexedFrom i (text :: rest) = (i, text) :: indexedFrom (S i) rest.
Proof. reflexivity. Qed.

Lemma formatFrom_prefix (config : FormatConfig) (token : nat -> bool)
    (lines : list str) :
  forall i k,
    (k <= length lines)%nat ->
    (forall j, (j < k)%nat -> token (i + j)%nat = false) ->
    ((k < length lines)%nat -> token (i + k)%nat = true) ->
    formatFrom token config i lines
    = map (fun e => (fst e, formatLine (snd e) config))
        (filter (changed config) (firstn k (indexedFrom i lines))).
Proof.
  induction lines as [|text rest IH]; intros i k Hk Hlow Hstop.
  - now destruct k.
  - destruct k as [|k].
    + simpl. rewrite Nat.add_0_r in Hstop. rewrite Hstop; [reflexivity|simpl; lia].
    + rewrite indexedFrom_cons. cbn [formatFrom firstn filter].
      specialize (Hlow 0%nat ltac:(lia)) as H0. rewrite Nat.add_0_r in H0.
      rewrite H0. unfold changed at 1. cbn [snd fst].
      rewrite (IH (S i) k).
      * destruct (negb (streq (formatLine text config) text)); reflexivity.
      * simpl in Hk. lia.
      * intros j Hj. replace (S i + j)%nat with (i + S j)%nat by lia.
        apply Hlow. lia.
      * intros Hlt. replace (S i + k)%nat with (i + S k)%nat by lia.
        apply Hstop. simpl. lia.
Qed.

(** C8. When cancellation is signalled after [k] lines, the driver returns
    one pair (index, formatted line) for each of the lines 0 .. k-1 that
    formatting changes and nothing for an unchanged line, in line order; this
    is an initial segment of the edits of the uncancelled run. *)
Theorem cancellation_prefix (document : list str) (config : FormatConfig)
    (k : nat) (token : nat -> bool) :
  (k <= length document)%nat ->
  cancelledAfter k document token ->
  provideDocumentFormattingEdits document config token
    = editsOfPrefix config k document /\
  provideDocumentFormattingEdits document config neverCancelled
    = editsOfPrefix config (length document) document /\
  exists rest,
    provideDocumentFormattingEdits document config neverCancelled
    = provideDocumentFormattingEdits document config token ++ rest.
Proof.
  intros Hk [Hlow Hstop].
  assert (Hcut : provideDocumentFormattingEdits document config token
                 = editsOfPrefix config k document).
  { unfold provideDocumentFormattingEdits, editsOfPrefix.
    apply formatFrom_prefix; auto. }
  assert (Hfull : provideDocumentFormattingEdits document config neverCancelled
                  = editsOfPrefix config (length document) document).
  { unfold provideDocumentFormattingEdits, editsOfPrefix.
    apply formatFrom_prefix; auto. lia. }
  repeat split; trivial.
  rewrite Hcut, Hfull. unfold editsOfPrefix.
  exists (map (fun e => (fst e, formatLine (snd e) config))
            (filter (changed config)
               (skipn k (firstn (length document) (indexedFrom 0 document))))).
  rewrite <- map_app, <- filter_app. do 2 f_equal.
  rewrite <- (firstn_skipn k (firstn (length document) (indexedFrom 0 document)))
    at 1.
  f_equal. rewrite firstn_firstn. now rewrite Nat.min_l.
Qed.

Lemma cancellation_prefix_witness :
  provideDocumentFormattingEdits
    [lit "loop mov r1,r2"; lit "* note"; lit "a r1,r2"] defaultConfig
    (fun i => (2 <=? i)%nat)
  = [(0%nat, lit "loop     MOV r1, r2")].
Proof.
  destruct (cancellation_prefix
              [lit "loop mov r1,r2"; lit "* note"; lit "a r1,r2"] defaultConfig
              2 (fun i => (2 <=? i)%nat)) as [H _].
  - simpl. lia.
  - split.
    + intros i Hi. apply Nat.leb_gt. lia.
    + intros _. reflexivity.
  - rewrite H. reflexivity.
Defined.

(** ** Trimming *)

Lemma dropWhile_app (p : ascii -> bool) (x y : str) :
  dropWhile p (x ++ y)
  = if forallb p x then dropWhile p y else dropWhile p x ++ y.
Proof.
  induction x as [|c x IH]; simpl; [reflexivity|].
  destruct (p c); simpl; [exact IH|reflexivity].
Qed.

Lemma forallb_rev (p : ascii -> bool) (s : str) :
  forallb p (rev s) = forallb p s.
Proof.
  induction s as [|c s IH]; simpl; [reflexivity|].
  rewrite forallb_app, IH. simpl. rewrite andb_true_r. apply andb_comm.
Qed.

Lemma trimEnd_app (a b : str) :
  trimEnd (a ++ b) = if allWs b then trimEnd a else a ++ trimEnd b.
Proof.
  unfold trimEnd, allWs. rewrite rev_app_distr, dropWhile_app, forallb_rev.
  destruct (forallb isWhiteSpace b); [reflexivity|].
  now rewrite rev_app_distr, rev_involutive.
Qed.


Lemma trimEnd_cons (c : ascii) (r : str) :
  trimEnd (c :: r)
  = if allWs r then (if isWhiteSpace c then [] else [c]) else c :: trimEnd r.
Proof.
  change (c :: r) with ([c] ++ r). rewrite trimEnd_app.
  destruct (allWs r); [|reflexivity].
  unfold trimEnd. simpl. now destruct (isWhiteSpace c).
Qed.

Lemma trimEnd_allWs (s : str) : allWs s = true -> trimEnd s = [].
Proof.
  intros H. rewrite <- (app_nil_l s), trimEnd_app, H. reflexivity.
Qed.

Lemma trimEnd_nil_iff (s : str) : trimEnd s = [] <-> allWs s = true.
Proof.
  split; [|apply trimEnd_allWs].
  induction s as [|c r IH]; [reflexivity|].
  rewrite trimEnd_cons. simpl.
  destruct (allWs r).
  - destruct (isWhiteSpace c); [reflexivity|discriminate].
  - discriminate.
Qed.

Lemma trimStart_nil_iff (s : str) : trimStart s = [] <-> allWs s = true.
Proof.
  unfold trimStart. induction s as [|c r IH]; simpl; [tauto|].
  destruct (isWhiteSpace c); simpl; [exact IH|].
  split; discriminate.
Qed.

Lemma allWs_trimStart (s : str) : allWs (trimStart s) = allWs s.
Proof.
  unfold trimStart. induction s as [|c r IH]; simpl; [reflexivity|].
  destruct (isWhiteSpace c) eqn:E; simpl; [exact IH|now rewrite E].
Qed.

Lemma trim_nil_iff (s : str) : trim s = [] <-> allWs s = true.
Proof.
  unfold trim. rewrite trimEnd_nil_iff. now rewrite allWs_trimStart.
Qed.

Lemma truthy_trim (s : str) : truthy (trim s) = negb (allWs s).
Proof.
  destruct (allWs s) eqn:E.
  - apply trim_nil_iff in E. now rewrite E.
  - apply truthy_true. intros H. apply trim_nil_iff in H. congruence.
Qed.

Lemma endsNonWs_allWs (s : str) : endsNonWs s = true -> allWs s = false.
Proof.
  induction s as [|c r IH]; [discriminate|].
  destruct r as [|c' r'].
  - simpl. destruct (isWhiteSpace c); [discriminate|reflexivity].
  - intros H. change (endsNonWs (c' :: r') = true) in H.
    apply IH in H. change (allWs (c :: c' :: r')) with
      (isWhiteSpace c && allWs (c' :: r')). rewrite H. apply andb_false_r.
Qed.

Lemma endsNonWs_trimEnd (s : str) : endsNonWs s = true -> trimEnd s = s.
Proof.
  induction s as [|c r IH]; [discriminate|].
  rewrite trimEnd_cons. destruct r as [|c' r'].
  - simpl. destruct (isWhiteSpace c); [discriminate|reflexivity].
  - intros H. change (endsNonWs (c' :: r') = true) in H.
    rewrite (endsNonWs_allWs _ H). now rewrite (IH H).
Qed.

Lemma trimEnd_endsNonWs (s : str) : allWs s = false -> endsNonWs (trimEnd s) = true.
Proof.
  induction s as [|c r IH]; [discriminate|].
  rewrite trimEnd_cons. change (allWs (c :: r)) with (isWhiteSpace c && allWs r).
  destruct (allWs r) eqn:Er.
  - rewrite andb_true_r. intros Hc. rewrite Hc. simpl. now rewrite Hc.
  - intros _. specialize (IH eq_refl).
    destruct (trimEnd r) eqn:Et; [discriminate|]. exact IH.
Qed.

Lemma endsNonWs_app (a b : str) :
  endsNonWs b = true -> endsNonWs (a ++ b) = true.
Proof.
  intros H. induction a as [|c a IH]; [exact H|].
  simpl. destruct (a ++ b) eqn:E; [|exact IH].
  destruct a, b; discriminate.
Qed.

Lemma trimEnd_idem (s : str) : trimEnd (trimEnd s) = trimEnd s.
Proof.
  destruct (allWs s) eqn:E.
  - now rewrite (trimEnd_allWs _ E).
  - apply endsNonWs_trimEnd. now apply trimEnd_endsNonWs.
Qed.

Lemma trimEnd_app_ends (a b : str) :
  endsNonWs b = true -> trimEnd (a ++ b) = a ++ b.
Proof. intros H. apply endsNonWs_trimEnd. now apply endsNonWs_app. Qed.

Lemma trim_endsNonWs (s : str) : trim s <> [] -> endsNonWs (trim s) = true.
Proof.
  intros H. unfold trim in *. apply trimEnd_endsNonWs.
  destruct (allWs (trimStart s)) eqn:E; [|reflexivity].
  apply trimEnd_nil_iff in E. contradiction.
Qed.

Lemma isToken_endsNonWs (t : str) : isToken t = true -> endsNonWs t = true.
Proof.
  unfold isToken. induction t as [|c r IH]; [discriminate|].
  simpl. intros H. apply andb_true_iff in H as [Hc Hr].
  destruct r as [|c' r']; [exact Hc|].
  apply IH. exact Hr.
Qed.

(** ** Words, and [split] on runs of white space *)

Lemma words_ws_cons (c : ascii) (r : str) :
  isWhiteSpace c = true -> words (c :: r) = words r.
Proof. intros H. simpl. now rewrite H. Qed.

Lemma words_nonws_cons (c : ascii) (r : str) :
  isWhiteSpace c = false ->
  words (c :: r) = if startsWs r then [c] :: words r
                   else match r with [] => [[c]] | _ => consHead c (words r) end.
Proof.
  intros H. simpl. rewrite H. destruct r as [|c' r']; [reflexivity|].
  simpl. destruct (isWhiteSpace c'); reflexivity.
Qed.

Lemma words_nonws_nonnil (c : ascii) (r : str) :
  isWhiteSpace c = false -> words (c :: r) <> [].
Proof.
  revert c. induction r as [|c' r IH]; intros c H.
  - simpl. rewrite H. discriminate.
  - rewrite (words_nonws_cons _ _ H). cbn [startsWs].
    destruct (isWhiteSpace c') eqn:E; [discriminate|].
    specialize (IH c' E). destruct (words (c' :: r)); [contradiction|discriminate].
Qed.

Lemma consHead_app (c : ascii) (l l' : list str) :
  l <> [] -> consHead c (l ++ l') = consHead c l ++ l'.
Proof. destruct l; [contradiction|reflexivity]. Qed.

Lemma words_app_ws (a b : str) :
  b = [] \/ startsWs b = true ->
  words (a ++ b) = words a ++ words b.
Proof.
  intros Hb. induction a as [|c a IH]; [reflexivity|].
  destruct (isWhiteSpace c) eqn:Ec.
  - change ((c :: a) ++ b) with (c :: (a ++ b)).
    now rewrite !(words_ws_cons _ _ Ec).
  - change ((c :: a) ++ b) with (c :: (a ++ b)).
    rewrite !(words_nonws_cons _ _ Ec).
    destruct a as [|c' a'].
    + cbn [app startsWs]. destruct Hb as [-> | Hb]; [reflexivity|].
      rewrite Hb. reflexivity.
    + cbn [app startsWs]. change (c' :: a' ++ b) with ((c' :: a') ++ b).
      rewrite IH. destruct (isWhiteSpace c') eqn:Ec'; [reflexivity|].
      apply consHead_app. now apply words_nonws_nonnil.
Qed.

Lemma words_allWs (s : str) : allWs s = true -> words s = [].
Proof.
  induction s as [|c r IH]; [reflexivity|].
  simpl. intros H. apply andb_true_iff in H as [Hc Hr].
  rewrite Hc. auto.
Qed.

Lemma startsWs_allWs (s : str) : allWs s = true -> s = [] \/ startsWs s = true.
Proof.
  destruct s as [|c r]; [now left|]. simpl. intros H.
  apply andb_true_iff in H as [Hc _]. now right.
Qed.

Lemma words_app_allWs_r (a w : str) : allWs w = true -> words (a ++ w) = words a.
Proof.
  intros H. rewrite words_app_ws by now apply startsWs_allWs.
  rewrite (words_allWs _ H). apply app_nil_r.
Qed.

Lemma words_app_allWs_l (w b : str) : allWs w = true -> words (w ++ b) = words b.
Proof.
  induction w as [|c w IH]; [reflexivity|].
  simpl app. intros H. simpl in H. apply andb_true_iff in H as [Hc Hw].
  rewrite (words_ws_cons _ _ Hc). auto.
Qed.

Lemma trimEnd_split (s : str) : exists w, allWs w = true /\ s = trimEnd s ++ w.
Proof.
  induction s as [|c r (w & Hw & E)]; [now exists []|].
  rewrite trimEnd_cons. destruct (allWs r) eqn:Er.
  - destruct (isWhiteSpace c) eqn:Ec.
    + exists (c :: r). split; [simpl; now rewrite Ec|reflexivity].
    + exists r. split; [exact Er|reflexivity].
  - exists w. split; [exact Hw|]. simpl. now rewrite <- E.
Qed.

Lemma trimStart_split (s : str) : exists w, allWs w = true /\ s = w ++ trimStart s.
Proof.
  unfold trimStart. induction s as [|c r (w & Hw & E)]; [now exists []|].
  simpl. destruct (isWhiteSpace c) eqn:Ec.
  - exists (c :: w). split; [simpl; now rewrite Ec|]. simpl. now rewrite <- E.
  - now exists [].
Qed.

Lemma words_trimEnd (s : str) : words (trimEnd s) = words s.
Proof.
  destruct (trimEnd_split s) as (w & Hw & E).
  rewrite E at 2. now rewrite words_app_allWs_r.
Qed.

Lemma words_trimStart (s : str) : words (trimStart s) = words s.
Proof.
  destruct (trimStart_split s) as (w & Hw & E).
  rewrite E at 2. now rewrite words_app_allWs_l.
Qed.

Lemma words_trim (s : str) : words (trim s) = words s.
Proof. unfold trim. now rewrite words_trimEnd, words_trimStart. Qed.

Lemma isToken_cons (c : ascii) (t : str) :
  isWhiteSpace c = false -> (t = [] \/ isToken t = true) -> isToken (c :: t) = true.
Proof.
  unfold isToken. simpl. intros -> [-> | H]; [reflexivity|].
  apply andb_true_iff in H as [_ H]. now rewrite H.
Qed.

Lemma words_tokens (s : str) : Forall (fun t => isToken t = true) (words s).
Proof.
  induction s as [|c r IH]; [constructor|].
  destruct (isWhiteSpace c) eqn:Ec.
  - now rewrite (words_ws_cons _ _ Ec).
  - rewrite (words_nonws_cons _ _ Ec).
    destruct (startsWs r).
    + constructor; [now apply isToken_cons; auto|exact IH].
    + destruct r as [|c' r']; [constructor; [now apply isToken_cons; auto|constructor]|].
      destruct (words (c' :: r')) as [|t ts].
      * constructor; [now apply isToken_cons; auto|constructor].
      * inversion IH; subst. constructor; [|assumption].
        apply isToken_cons; auto.
Qed.

Lemma startsWs_token (t : str) : isToken t = true -> startsWs t = false.
Proof.
  destruct t as [|c r]; [reflexivity|]. unfold isToken. simpl.
  destruct (isWhiteSpace c); [discriminate|reflexivity].
Qed.

Lemma words_token (t : str) : isToken t = true -> words t = [t].
Proof.
  induction t as [|c r IH]; [discriminate|].
  unfold isToken. simpl truthy. cbn [forallb andb]. intros H.
  apply andb_true_iff in H as [Hc Hr]. apply negb_true_iff in Hc.
  rewrite (words_nonws_cons _ _ Hc).
  destruct r as [|c' r']; [reflexivity|].
  assert (Ht : isToken (c' :: r') = true) by (unfold isToken; now rewrite Hr).
  rewrite (startsWs_token _ Ht), (IH Ht). reflexivity.
Qed.

(** [split] yields the words, with an empty piece for a white run at either
    end (and for the empty string). *)
Lemma splitRuns_words (s : str) :
  splitRuns true s = words s ++ (if endsNonWs s then [] else [[]]) /\
  splitRuns false s
  = (if startsWs s then [[]] else [])
    ++ words s ++ (if endsNonWs s then [] else [[]]).
Proof.
  induction s as [|c r [IHt IHf]]; [split; reflexivity|].
  assert (Hends : isWhiteSpace c = true -> endsNonWs (c :: r) = endsNonWs r).
  { intros Hc. destruct r; [simpl; now rewrite Hc|reflexivity]. }
  destruct (isWhiteSpace c) eqn:Ec.
  - cbn [splitRuns startsWs]. rewrite Ec, (words_ws_cons _ _ Ec), (Hends eq_refl).
    split; [exact IHt|]. simpl. now rewrite IHt.
  - cbn [splitRuns startsWs]. rewrite Ec, (words_nonws_cons _ _ Ec), IHf.
    assert (E : consHead c ((if startsWs r then [[]] else []) ++ words r ++
                            (if endsNonWs r then [] else [[]]))
                = (if startsWs r then [c] :: words r
                   else match r with [] => [[c]] | _ => consHead c (words r) end)
                  ++ (if endsNonWs (c :: r) then [] else [[]])).
    { destruct r as [|c' r'].
      - simpl. now rewrite Ec.
      - change (endsNonWs (c :: c' :: r')) with (endsNonWs (c' :: r')).
        cbn [startsWs]. destruct (isWhiteSpace c') eqn:Ec'; [reflexivity|].
        cbn [app]. apply consHead_app. now apply words_nonws_nonnil. }
    split; exact E.
Qed.

Lemma startsWs_trimStart (s : str) : startsWs (trimStart s) = false.
Proof.
  unfold trimStart. induction s as [|c r IH]; [reflexivity|].
  simpl. destruct (isWhiteSpace c) eqn:E; [exact IH|]. simpl. exact E.
Qed.

Lemma startsWs_trimEnd (s : str) : startsWs s = false -> startsWs (trimEnd s) = false.
Proof.
  destruct s as [|c r]; [reflexivity|]. rewrite trimEnd_cons. simpl.
  intros Hc. rewrite Hc. destruct (allWs r); simpl; assumption.
Qed.

(** The tokens [parseLine] works on are the words of the code part. *)
Lemma splitWs_trim (s : str) : allWs s = false -> splitWs (trim s) = words s.
Proof.
  intros H. unfold splitWs.
  destruct (splitRuns_words (trim s)) as [_ E]. rewrite E. clear E.
  assert (Hs : startsWs (trim s) = false)
    by (unfold trim; apply startsWs_trimEnd, startsWs_trimStart).
  assert (He : endsNonWs (trim s) = true).
  { apply trim_endsNonWs. intros E. apply trim_nil_iff in E. congruence. }
  rewrite Hs, He, words_trim. simpl. apply app_nil_r.
Qed.

(** ** The shape of what [parseLine] returns *)

Lemma indexOf_notin (s : str) (c : ascii) : ~ In c s -> indexOf s c = -1.
Proof.
  induction s as [|x r IH]; [reflexivity|].
  intros H. simpl. destruct (Ascii.eqb x c) eqn:E.
  - apply Ascii.eqb_eq in E. subst. exfalso. apply H. now left.
  - rewrite IH; [reflexivity|]. intros Hin. apply H. now right.
Qed.

Lemma indexOf_app (a b : str) (c : ascii) :
  ~ In c a -> indexOf (a ++ c :: b) c = Z.of_nat (length a).
Proof.
  induction a as [|x a IH]; intros H.
  - simpl. now rewrite Ascii.eqb_refl.
  - cbn [app indexOf]. destruct (Ascii.eqb x c) eqn:E.
    + apply Ascii.eqb_eq in E. subst. exfalso. apply H. now left.
    + rewrite IH by (intros Hin; apply H; now right).
      destruct (Z.of_nat (length a) <? 0) eqn:El; [lia|].
      cbn [length]. lia.
Qed.

(** Every line splits at its first semicolon, if it has one. *)
Lemma split_at_semicolon (line : str) :
  exists code rest,
    line = code ++ rest /\ ~ In semicolon code /\
    (rest = [] \/ exists r, rest = semicolon :: r).
Proof.
  induction line as [|x r (code & rest & E & Hc & Hr)].
  - exists [], []. auto.
  - destruct (Ascii.eqb x semicolon) eqn:Ex.
    + apply Ascii.eqb_eq in Ex. subst x.
      exists [], (semicolon :: r). repeat split; eauto.
    + exists (x :: code), rest. subst r. repeat split; auto.
      intros [H | H]; [|contradiction].
      subst x. now rewrite Ascii.eqb_refl in Ex.
Qed.

Lemma allWs_trimEnd (s : str) : allWs (trimEnd s) = allWs s.
Proof.
  destruct (allWs s) eqn:E.
  - now rewrite (trimEnd_allWs _ E).
  - apply endsNonWs_allWs. now apply trimEnd_endsNonWs.
Qed.

(** [parseLine] on a line given with its split at the first semicolon. *)
Lemma parseLine_app (code rest : str) :
  ~ In semicolon code ->
  (rest = [] \/ exists r, rest = semicolon :: r) ->
  parseLine (code ++ rest)
  = if startsWith (trimStart (code ++ rest)) (lit "*")
       || startsWith (trimStart (code ++ rest)) (lit ";")
    then mkParsedLine [] [] [] (trimStart (code ++ rest))
    else if allWs code then mkParsedLine [] [] [] (trim rest)
    else parseTokens (words code) (trim rest).
Proof.
  intros Hc Hr. unfold parseLine.
  destruct (startsWith (trimStart (code ++ rest)) (lit "*")
            || startsWith (trimStart (code ++ rest)) (lit ";")); [reflexivity|].
  cbv zeta.
  assert (E : (if indexOf (code ++ rest) semicolon >=? 0
               then substring (code ++ rest) 0 (indexOf (code ++ rest) semicolon)
               else code ++ rest) = code /\
              (if indexOf (code ++ rest) semicolon >=? 0
               then trim (substringFrom (code ++ rest)
                            (indexOf (code ++ rest) semicolon))
               else []) = trim rest).
  { destruct Hr as [-> | (r & ->)].
    - rewrite app_nil_r, (indexOf_notin _ _ Hc). now split.
    - rewrite (indexOf_app _ _ _ Hc).
      assert (Hge : (Z.of_nat (length code) >=? 0) = true) by (apply Z.geb_le; lia).
      rewrite Hge. unfold substring, substringFrom.
      rewrite Z.sub_0_r, Nat2Z.id. simpl skipn.
      rewrite firstn_app, firstn_all, Nat.sub_diag, skipn_app, skipn_all,
        Nat.sub_diag.
      simpl. now rewrite app_nil_r. }
  destruct E as [E1 E2]. rewrite E1, E2.
  rewrite truthy_trim, allWs_trimEnd, negb_involutive.
  destruct (allWs code) eqn:Ea; [reflexivity|].
  rewrite splitWs_trim by now rewrite allWs_trimEnd.
  now rewrite words_trimEnd.
Qed.


Lemma parseTokens_one (t cmt : str) :
  parseTokens [t] cmt
  = if isInstOrDir (toUpperCase t) then mkParsedLine [] t [] cmt
    else mkParsedLine t [] [] cmt.
Proof.
  unfold parseTokens. cbn [length Nat.eqb Nat.ltb Nat.leb nth].
  destruct (isInstOrDir (toUpperCase t)); reflexivity.
Qed.

Lemma parseTokens_many (t u : str) (r : list str) (cmt : str) :
  parseTokens (t :: u :: r) cmt
  = if isInstOrDir (toUpperCase t)
    then mkParsedLine [] t (join [space] (u :: r)) cmt
    else mkParsedLine t u (join [space] r) cmt.
Proof.
  unfold parseTokens. cbn [length Nat.eqb Nat.ltb Nat.leb nth].
  destruct (isInstOrDir (toUpperCase t)); cbn [negb andb].
  - reflexivity.
  - unfold parseRest. cbn [length Nat.ltb Nat.leb nth skipn].
    destruct r; reflexivity.
Qed.

Lemma parseTokens_instruction (tokens : list str) (cmt : str) :
  instruction (parseTokens tokens cmt) = [] \/
  In (instruction (parseTokens tokens cmt)) tokens.
Proof.
  destruct tokens as [|t [|u r]].
  - now left.
  - rewrite parseTokens_one. destruct (isInstOrDir _); simpl; auto.
  - rewrite parseTokens_many. destruct (isInstOrDir _); simpl; auto.
Qed.

Lemma parseTokens_comment (tokens : list str) (cmt : str) :
  comment (parseTokens tokens cmt) = cmt.
Proof.
  destruct tokens as [|t [|u r]].
  - reflexivity.
  - rewrite parseTokens_one. now destruct (isInstOrDir _).
  - rewrite parseTokens_many. now destruct (isInstOrDir _).
Qed.

(** A blank line parses into four empty fields. *)
Lemma parseLine_blank (line : str) :
  allWs line = true -> parseLine line = mkParsedLine [] [] [] [].
Proof.
  intros H. destruct (split_at_semicolon line) as (code & rest & E & Hc & Hr).
  subst line. rewrite (parseLine_app _ _ Hc Hr).
  assert (Ht : trimStart (code ++ rest) = []) by now apply trimStart_nil_iff.
  rewrite Ht. unfold allWs in H. rewrite forallb_app in H.
  apply andb_true_iff in H as [H1 H2].
  change (forallb isWhiteSpace code) with (allWs code) in H1. rewrite H1.
  destruct Hr as [-> | (r & ->)]; [reflexivity|discriminate H2].
Qed.

(** The instruction field, when present, is one of the tokens of the line. *)
Lemma parseLine_instruction_token (line : str) :
  instruction (parseLine line) <> [] ->
  isToken (instruction (parseLine line)) = true.
Proof.
  destruct (split_at_semicolon line) as (code & rest & E & Hc & Hr).
  subst line. rewrite (parseLine_app _ _ Hc Hr).
  destruct (_ || _); [simpl; congruence|].
  destruct (allWs code); [simpl; congruence|].
  intros Hne.
  destruct (parseTokens_instruction (words code) (trim rest)) as [H | H];
    [contradiction|].
  pose proof (words_tokens code) as Hall.
  rewrite Forall_forall in Hall. now apply Hall.
Qed.

(** The comment of a line with code is trimmed: empty, or ending in a
    character that is not white. *)
Lemma parseLine_comment_trimmed (line : str) :
  label (parseLine line) <> [] \/ instruction (parseLine line) <> []
    \/ operands (parseLine line) <> [] ->
  comment (parseLine line) <> [] ->
  endsNonWs (comment (parseLine line)) = true.
Proof.
  destruct (split_at_semicolon line) as (code & rest & E & Hc & Hr).
  subst line. rewrite (parseLine_app _ _ Hc Hr).
  destruct (_ || _); [simpl; intuition congruence|].
  destruct (allWs code); [simpl; intuition congruence|].
  rewrite parseTokens_comment. intros _. apply trim_endsNonWs.
Qed.

(** ** Lines with code: the rendering path *)

Lemma formatLine_code (line : str) (config : FormatConfig) :
  label (parseLine line) <> [] \/ instruction (parseLine line) <> []
    \/ operands (parseLine line) <> [] ->
  formatLine line config
  = placeComment (renderCode (parseLine line) config) (parseLine line) config.
Proof.
  intros H. unfold formatLine. rewrite truthy_trim.
  destruct (allWs line) eqn:Eb.
  - rewrite (parseLine_blank _ Eb) in H. simpl in H. intuition congruence.
  - cbn [negb].
    destruct H as [H | [H | H]]; apply truthy_true in H; rewrite H;
      cbn [negb]; rewrite ?andb_false_r; cbn [andb]; reflexivity.
Qed.

(** ** Trailing white space

    Every line with code leaves [formatLine] through the final [trimEnd]. *)

Lemma formatLine_code_right_trimmed (line : str) (config : FormatConfig) :
  label (parseLine line) <> [] \/ instruction (parseLine line) <> []
    \/ operands (parseLine line) <> [] ->
  trimEnd (formatLine line config) = formatLine line config.
Proof.
  intros H. rewrite (formatLine_code _ _ H). unfold placeComment.
  apply trimEnd_idem.
Qed.

(** C6 at a whole-line comment that carries trailing spaces: the early
    return of the comment-only branch hands the text back with those spaces,
    which the final [trimEnd] of the code branch removes. *)
Theorem formatLine_whole_comment_trailing_space :
  formatLine (lit "* note  ") defaultConfig = lit "* note  " /\
  trimEnd (formatLine (lit "* note  ") defaultConfig)
    <> formatLine (lit "* note  ") defaultConfig /\
  formatLine (lit "   ; note  ") defaultConfig = repeat space 40 ++ lit "; note  ".
Proof. repeat split; try reflexivity. vm_compute. discriminate. Qed.

Lemma occursIn_app_l (t a b : str) : occursIn t a -> occursIn t (a ++ b).
Proof.
  intros (pre & post & ->). exists pre, (post ++ b). now rewrite <- !app_assoc.
Qed.


Lemma occursIn_trimEnd (t s : str) :
  endsNonWs t = true -> occursIn t s -> occursIn t (trimEnd s).
Proof.
  intros Ht (pre & post & ->).
  rewrite app_assoc, trimEnd_app.
  destruct (allWs post).
  - rewrite (trimEnd_app_ends _ _ Ht). exists pre, []. now rewrite app_nil_r.
  - exists pre, (trimEnd post). now rewrite <- app_assoc.
Qed.

Lemma occursIn_placeComment (t formatted : str) (parsed : ParsedLine)
    (config : FormatConfig) :
  endsNonWs t = true -> occursIn t formatted ->
  occursIn t (placeComment formatted parsed config).
Proof.
  intros Ht H. unfold placeComment. apply occursIn_trimEnd; [exact Ht|].
  destruct (truthy (comment parsed)); [|exact H].
  destruct (_ <? _); unfold padEnd; rewrite <- ?app_assoc;
    apply occursIn_app_l, occursIn_trimEnd; assumption.
Qed.

Lemma occursIn_renderCode (parsed : ParsedLine) (config : FormatConfig) :
  isToken (instruction parsed) = true ->
  caseInstruction (instruction parsed) config = instruction parsed ->
  occursIn (instruction parsed) (renderCode parsed config).
Proof.
  intros Ht Hcase. unfold renderCode. rewrite Hcase.
  assert (Hne : truthy (instruction parsed) = true).
  { unfold isToken in Ht. now apply andb_true_iff in Ht as [Ht _]. }
  rewrite Hne. apply isToken_endsNonWs in Ht.
  assert (H : occursIn (instruction parsed)
                (labelField parsed config ++ instruction parsed)).
  { exists (labelField parsed config), []. now rewrite app_nil_r. }
  destruct (truthy (operands parsed)); [|exact H].
  rewrite (trimEnd_app_ends _ _ Ht). now do 2 apply occursIn_app_l.
Qed.

(** C7. An instruction token whose upper-cased form is in neither table
    occurs in the rendered line exactly as written, whatever the
    configuration (its casing switches included). *)
Theorem unknown_mnemonic_verbatim (line : str) (config : FormatConfig) :
  instruction (parseLine line) <> [] ->
  has INSTRUCTIONS (toUpperCase (instruction (parseLine line))) = false ->
  has DIRECTIVES (toUpperCase (instruction (parseLine line))) = false ->
  caseInstruction (instruction (parseLine line)) config
    = instruction (parseLine line) /\
  occursIn (instruction (parseLine line)) (formatLine line config).
Proof.
  intros Hne Hi Hd.
  assert (Hcase : caseInstruction (instruction (parseLine line)) config
                  = instruction (parseLine line)).
  { unfold caseInstruction. now rewrite Hi, Hd. }
  split; [exact Hcase|].
  pose proof (parseLine_instruction_token line Hne) as Ht.
  rewrite formatLine_code by auto.
  apply occursIn_placeComment; [now apply isToken_endsNonWs|].
  now apply occursIn_renderCode.
Qed.

Lemma unknown_mnemonic_verbatim_witness :
  occursIn (lit "frob") (formatLine (lit "loop frob r1,r2 ;x") defaultConfig).
Proof.
  apply (unknown_mnemonic_verbatim (lit "loop frob r1,r2 ;x") defaultConfig);
    [vm_compute; discriminate | reflexivity | reflexivity].
Defined.

(** ** Placement of an inline comment *)

(** C3. On a line with a comment and some code, let [code] be the rendered
    code portion, right-trimmed.  When [code] is shorter than
    [commentColumn], the output is [code], padding spaces and the comment,
    and exactly [commentColumn] characters precede the comment; otherwise
    the output is [code], two spaces and the comment. *)
Theorem inline_comment_placement (line : str) (config : FormatConfig) :
  comment (parseLine line) <> [] ->
  label (parseLine line) <> [] \/ instruction (parseLine line) <> []
    \/ operands (parseLine line) <> [] ->
  (Z.of_nat (length (trimEnd (renderCode (parseLine line) config)))
     < commentColumn config ->
   exists pad,
     pad = repeat space (length pad) /\
     Z.of_nat (length (trimEnd (renderCode (parseLine line) config) ++ pad))
       = commentColumn config /\
     formatLine line config
       = (trimEnd (renderCode (parseLine line) config) ++ pad)
           ++ comment (parseLine line)) /\
  (commentColumn config
     <= Z.of_nat (length (trimEnd (renderCode (parseLine line) config))) ->
   formatLine line config
     = trimEnd (renderCode (parseLine line) config)
         ++ lit "  " ++ comment (parseLine line)).
Proof.
  intros Hc Hcode.
  pose proof (parseLine_comment_trimmed line Hcode Hc) as Hends.
  rewrite (formatLine_code _ _ Hcode). unfold placeComment.
  apply truthy_true in Hc. rewrite Hc.
  set (code := trimEnd (renderCode (parseLine line) config)).
  split; intros Hlen.
  - apply Z.ltb_lt in Hlen as Hlt. rewrite Hlt.
    rewrite (trimEnd_app_ends _ _ Hends). unfold padEnd.
    exists (repeat space (Z.to_nat (commentColumn config - Z.of_nat (length code)))).
    repeat split.
    + now rewrite repeat_length.
    + rewrite length_app, repeat_length. lia.
  - apply Z.ltb_ge in Hlen as Hge. rewrite Hge.
    apply trimEnd_app_ends. now apply endsNonWs_app.
Qed.

Lemma inline_comment_placement_witness :
  formatLine (lit "loop mov r1,r2 ;copy") defaultConfig
    = lit "loop     MOV r1, r2" ++ repeat space 21 ++ lit ";copy" /\
  formatLine (lit "averyveryverylonglabel mov r1,r2 ;c")
      (mkFormatConfig 0 9 18 20 true true true)
    = lit "averyveryverylonglabel MOV r1, r2" ++ lit "  " ++ lit ";c".
Proof.
  split.
  - destruct (inline_comment_placement (lit "loop mov r1,r2 ;copy") defaultConfig)
      as [H _]; [vm_compute; discriminate | left; vm_compute; discriminate |].
    destruct H as (pad & _ & _ & E); [vm_compute; reflexivity|].
    reflexivity.
  - destruct (inline_comment_placement (lit "averyveryverylonglabel mov r1,r2 ;c")
                (mkFormatConfig 0 9 18 20 true true true))
      as [_ H]; [vm_compute; discriminate | left; vm_compute; discriminate |].
    rewrite H; [reflexivity | vm_compute; discriminate].
Defined.

(** ** Comma spacing in the operands *)

Lemma comma_not_ws : isWhiteSpace comma = false.
Proof. reflexivity. Qed.

Lemma space_ws : isWhiteSpace space = true.
Proof. reflexivity. Qed.

Lemma replaceCommaStar_comma (k : bool) (r : str) :
  replaceCommaStar k (comma :: r) = comma :: space :: replaceCommaStar true r.
Proof. reflexivity. Qed.

Lemma replaceCommaStar_other (k : bool) (c : ascii) (r : str) :
  Ascii.eqb c comma = false -> isWhiteSpace c = false ->
  replaceCommaStar k (c :: r) = c :: replaceCommaStar false r.
Proof.
  intros E W. cbn [replaceCommaStar]. rewrite E, W, andb_false_r. reflexivity.
Qed.

Lemma replaceCommaStar_ws_skip (c : ascii) (r : str) :
  isWhiteSpace c = true ->
  replaceCommaStar true (c :: r) = replaceCommaStar true r.
Proof.
  intros W. cbn [replaceCommaStar].
  destruct (Ascii.eqb c comma) eqn:E.
  - apply Ascii.eqb_eq in E. subst c. discriminate W.
  - now rewrite W.
Qed.

Lemma replaceCommaStar_ws_keep (c : ascii) (r : str) :
  isWhiteSpace c = true ->
  replaceCommaStar false (c :: r) = c :: replaceCommaStar false r.
Proof.
  intros W. cbn [replaceCommaStar].
  destruct (Ascii.eqb c comma) eqn:E.
  - apply Ascii.eqb_eq in E. subst c. discriminate W.
  - reflexivity.
Qed.

(** A character is a comma, white, or neither. *)
Lemma char_cases (c : ascii) :
  c = comma \/ isWhiteSpace c = true
  \/ (Ascii.eqb c comma = false /\ isWhiteSpace c = false).
Proof.
  destruct (Ascii.eqb c comma) eqn:E.
  - left. now apply Ascii.eqb_eq.
  - destruct (isWhiteSpace c); auto.
Qed.

(** The second replacement of [formatOperands] finds nothing left to do. *)
Lemma replaceCommaPlus_Star (s : str) :
  replaceCommaPlus true (replaceCommaStar true s) = replaceCommaStar true s /\
  replaceCommaPlus false (replaceCommaStar false s) = replaceCommaStar false s.
Proof.
  induction s as [|c r [IHt IHf]]; [split; reflexivity|].
  destruct (char_cases c) as [-> | [W | [E W]]].
  - rewrite !replaceCommaStar_comma.
    assert (H : forall k, replaceCommaPlus k
                  (comma :: space :: replaceCommaStar true r)
                = comma :: space :: replaceCommaStar true r).
    { intros k. cbn [replaceCommaPlus]. rewrite Ascii.eqb_refl, space_ws.
      replace (Ascii.eqb space comma) with false by reflexivity.
      cbn [andb]. now rewrite IHt. }
    split; apply H.
  - rewrite (replaceCommaStar_ws_skip _ _ W), (replaceCommaStar_ws_keep _ _ W).
    split; [exact IHt|].
    cbn [replaceCommaPlus]. destruct (Ascii.eqb c comma) eqn:E.
    + apply Ascii.eqb_eq in E. subst c. discriminate W.
    + cbn [andb]. now rewrite IHf.
  - rewrite !(replaceCommaStar_other _ _ _ E W).
    split; cbn [replaceCommaPlus]; rewrite E, W, ?andb_false_r, IHf;
      reflexivity.
Qed.

Lemma formatOperands_spaced (ops : str) (config : FormatConfig) :
  spaceAfterComma config = true ->
  formatOperands ops config = replaceCommaStar false ops.
Proof.
  intros H. unfold formatOperands. rewrite H.
  destruct ops as [|c r]; [reflexivity|]. cbn [truthy negb].
  apply replaceCommaPlus_Star.
Qed.

Lemma formatOperands_plain (ops : str) (config : FormatConfig) :
  spaceAfterComma config = false -> formatOperands ops config = ops.
Proof.
  intros H. unfold formatOperands. rewrite H. now destruct ops.
Qed.

Lemma replaceCommaStar_idem (s : str) :
  replaceCommaStar true (replaceCommaStar true s) = replaceCommaStar true s /\
  replaceCommaStar false (replaceCommaStar false s) = replaceCommaStar false s.
Proof.
  induction s as [|c r [IHt IHf]]; [split; reflexivity|].
  destruct (char_cases c) as [-> | [W | [E W]]].
  - rewrite !replaceCommaStar_comma.
    rewrite (replaceCommaStar_ws_skip space _ space_ws), IHt. now split.
  - rewrite (replaceCommaStar_ws_skip _ _ W), !(replaceCommaStar_ws_keep _ _ W).
    rewrite IHf. now split.
  - rewrite !(replaceCommaStar_other _ _ _ E W), IHf. now split.
Qed.

Lemma replaceCommaStar_snoc_comma (a : str) (k : bool) :
  replaceCommaStar k (a ++ [comma]) = replaceCommaStar k a ++ [comma; space].
Proof.
  revert k. induction a as [|c r IH]; intros k; [reflexivity|].
  cbn [app].
  destruct (char_cases c) as [-> | [W | [E W]]].
  - rewrite !replaceCommaStar_comma, IH. reflexivity.
  - destruct k;
      rewrite ?(replaceCommaStar_ws_skip _ _ W), ?(replaceCommaStar_ws_keep _ _ W),
        IH; reflexivity.
  - rewrite !(replaceCommaStar_other _ _ _ E W), IH. reflexivity.
Qed.

Lemma replaceCommaStar_snoc_other (a : str) (x : ascii) (k : bool) :
  Ascii.eqb x comma = false -> isWhiteSpace x = false ->
  replaceCommaStar k (a ++ [x]) = replaceCommaStar k a ++ [x].
Proof.
  intros Ex Wx. revert k. induction a as [|c r IH]; intros k.
  - cbn [app]. now rewrite (replaceCommaStar_other _ _ _ Ex Wx).
  - cbn [app].
    destruct (char_cases c) as [-> | [W | [E W]]].
    + rewrite !replaceCommaStar_comma, IH. reflexivity.
    + destruct k;
        rewrite ?(replaceCommaStar_ws_skip _ _ W), ?(replaceCommaStar_ws_keep _ _ W),
          IH; reflexivity.
    + rewrite !(replaceCommaStar_other _ _ _ E W), IH. reflexivity.
Qed.

Lemma endsNonWs_last (s : str) :
  endsNonWs s = true -> exists a x, s = a ++ [x] /\ isWhiteSpace x = false.
Proof.
  induction s as [|c r IH]; [discriminate|].
  destruct r as [|c' r'].
  - simpl. intros H. exists [], c. split; [reflexivity|].
    now apply negb_true_iff.
  - intros H. change (endsNonWs (c' :: r') = true) in H.
    destruct (IH H) as (a & x & E & W). exists (c :: a), x.
    rewrite E. now split.
Qed.

Lemma trimEnd_comma_space (a : str) : trimEnd (a ++ [comma; space]) = a ++ [comma].
Proof. rewrite trimEnd_app. reflexivity. Qed.

(** Re-spacing the right-trimmed result of a re-spacing gives the first
    result again, for text that ends in a character which is not white. *)
Lemma replaceCommaStar_trimEnd (o : str) :
  o = [] \/ endsNonWs o = true ->
  replaceCommaStar false (trimEnd (replaceCommaStar false o))
  = replaceCommaStar false o.
Proof.
  intros [-> | H]; [reflexivity|].
  destruct (endsNonWs_last _ H) as (a & x & -> & W).
  destruct (Ascii.eqb x comma) eqn:E.
  - apply Ascii.eqb_eq in E. subst x.
    rewrite replaceCommaStar_snoc_comma, trimEnd_comma_space.
    rewrite replaceCommaStar_snoc_comma.
    now rewrite (proj2 (replaceCommaStar_idem a)).
  - rewrite (replaceCommaStar_snoc_other _ _ _ E W).
    rewrite trimEnd_app_ends by (simpl; now rewrite W).
    rewrite (replaceCommaStar_snoc_other _ _ _ E W).
    now rewrite (proj2 (replaceCommaStar_idem a)).
Qed.

(** ** Single-spaced text *)

Lemma singleSpaced_replaceCommaStar (s : str) :
  forall b k : bool,
    singleSpaced b s = true ->
    singleSpaced (if k then true else b) (replaceCommaStar k s) = true.
Proof.
  induction s as [|c r IH]; intros b k H; [reflexivity|].
  destruct (char_cases c) as [-> | [W | [E W]]].
  - rewrite replaceCommaStar_comma.
    change (singleSpaced b (comma :: r)) with (singleSpaced false r) in H.
    cbn [singleSpaced]. rewrite comma_not_ws, space_ws, Ascii.eqb_refl.
    cbn [negb andb]. apply (IH false true H).
  - cbn [singleSpaced] in H. rewrite W in H.
    apply andb_true_iff in H as [H Hr]. apply andb_true_iff in H as [Hb Hc].
    destruct k.
    + rewrite (replaceCommaStar_ws_skip _ _ W). apply (IH true true Hr).
    + rewrite (replaceCommaStar_ws_keep _ _ W).
      cbn [singleSpaced]. rewrite W, Hb, Hc. cbn [andb].
      apply (IH true false Hr).
  - rewrite (replaceCommaStar_other _ _ _ E W).
    cbn [singleSpaced] in *. rewrite W in *.
    apply (IH false false H).
Qed.

Lemma words_nil_iff (s : str) : words s = [] <-> allWs s = true.
Proof.
  split; [|apply words_allWs].
  induction s as [|c r IH]; [reflexivity|].
  destruct (isWhiteSpace c) eqn:W.
  - rewrite (words_ws_cons _ _ W). simpl. now rewrite W.
  - intros H. now apply words_nonws_nonnil in H.
Qed.

Lemma join_cons (sep t : str) (r : list str) :
  r <> [] -> join sep (t :: r) = t ++ sep ++ join sep r.
Proof. destruct r; [contradiction|reflexivity]. Qed.

Lemma join_consHead (sep : str) (c : ascii) (l : list str) :
  l <> [] -> join sep (consHead c l) = c :: join sep l.
Proof.
  destruct l as [|t [|u r]]; [contradiction| |]; reflexivity.
Qed.

Lemma startsWs_trimStart_id (s : str) : startsWs s = false -> trimStart s = s.
Proof.
  destruct s as [|c r]; [reflexivity|]. unfold trimStart. simpl.
  intros H. now rewrite H.
Qed.

Lemma singleSpaced_startsWs (s : str) :
  singleSpaced true s = true -> startsWs s = false.
Proof.
  destruct s as [|c r]; [reflexivity|]. simpl.
  destruct (isWhiteSpace c); [discriminate|reflexivity].
Qed.

(** The words of single-spaced text, joined by single spaces, are the text
    itself, trimmed. *)
Lemma join_words_singleSpaced (s : str) :
  forall b, singleSpaced b s = true -> join [space] (words s) = trim s.
Proof.
  induction s as [|c r IH]; intros b H; [reflexivity|].
  destruct (isWhiteSpace c) eqn:W.
  - cbn [singleSpaced] in H. rewrite W in H.
    apply andb_true_iff in H as [_ Hr].
    rewrite (words_ws_cons _ _ W). rewrite (IH true Hr).
    unfold trim, trimStart. simpl. now rewrite W.
  - cbn [singleSpaced] in H. rewrite W in H.
    assert (Etrim : trim (c :: r) = trimEnd (c :: r)).
    { unfold trim, trimStart. simpl. now rewrite W. }
    rewrite Etrim, trimEnd_cons, (words_nonws_cons _ _ W).
    destruct r as [|c' r']; [simpl; now rewrite W|].
    cbn [startsWs]. destruct (isWhiteSpace c') eqn:W'.
    + pose proof (IH false H) as IHr.
      cbn [singleSpaced] in H. rewrite W' in H.
      apply andb_true_iff in H as [H Hr']. cbn [negb andb] in H.
      apply Ascii.eqb_eq in H. subst c'.
      assert (Er : trim (space :: r') = trimEnd r').
      { unfold trim, trimStart. simpl.
        change (dropWhile isWhiteSpace r') with (trimStart r').
        now rewrite (startsWs_trimStart_id _ (singleSpaced_startsWs _ Hr')). }
      rewrite Er in IHr.
      change (allWs (space :: r')) with (allWs r').
      destruct (allWs r') eqn:Ea.
      * apply words_allWs in Ea as Hw.
        rewrite (words_ws_cons _ _ W'), Hw, W. reflexivity.
      * rewrite join_cons.
        -- rewrite IHr, trimEnd_cons, Ea. reflexivity.
        -- rewrite (words_ws_cons _ _ W'). intros Hw.
           apply words_nil_iff in Hw. congruence.
    + pose proof (IH false H) as IHr.
      assert (Er : trim (c' :: r') = trimEnd (c' :: r')).
      { unfold trim, trimStart. simpl. now rewrite W'. }
      rewrite Er in IHr.
      assert (Ea : allWs (c' :: r') = false) by (simpl; now rewrite W').
      rewrite Ea, join_consHead by now apply words_nonws_nonnil.
      now rewrite IHr.
Qed.

Lemma isToken_inv (c : ascii) (t : str) :
  isToken (c :: t) = true ->
  isWhiteSpace c = false /\ (t = [] \/ isToken t = true).
Proof.
  unfold isToken. cbn [truthy forallb andb]. intros H.
  apply andb_true_iff in H as [Hc Ht]. apply negb_true_iff in Hc.
  split; [exact Hc|]. destruct t; [now left|right]. exact Ht.
Qed.

Lemma singleSpaced_token_app (t s : str) (b : bool) :
  isToken t = true -> singleSpaced b (t ++ s) = singleSpaced false s.
Proof.
  revert b. induction t as [|c t IH]; intros b H; [discriminate|].
  apply isToken_inv in H as [W [-> | Ht]].
  - simpl. now rewrite W.
  - cbn [app singleSpaced]. rewrite W. now apply IH.
Qed.

Lemma singleSpaced_join (r : list str) :
  Forall (fun t => isToken t = true) r ->
  singleSpaced true (join [space] r) = true.
Proof.
  induction 1 as [|t r Ht Hr IH]; [reflexivity|].
  destruct r as [|u r'].
  - cbn [join]. rewrite <- (app_nil_r t). now rewrite singleSpaced_token_app.
  - rewrite join_cons by discriminate.
    rewrite singleSpaced_token_app by exact Ht.
    cbn [app singleSpaced]. rewrite space_ws, Ascii.eqb_refl. exact IH.
Qed.

Lemma words_join (r : list str) :
  Forall (fun t => isToken t = true) r -> words (join [space] r) = r.
Proof.
  induction 1 as [|t r Ht Hr IH]; [reflexivity|].
  destruct r as [|u r'].
  - now apply words_token.
  - rewrite join_cons by discriminate.
    rewrite words_app_ws by (right; reflexivity).
    rewrite (words_token _ Ht).
    cbn [app]. rewrite (words_ws_cons _ _ space_ws). now rewrite IH.
Qed.

Lemma endsNonWs_join (r : list str) :
  Forall (fun t => isToken t = true) r ->
  join [space] r = [] \/ endsNonWs (join [space] r) = true.
Proof.
  induction 1 as [|t r Ht Hr IH]; [now left|]. right.
  destruct r as [|u r'].
  - now apply isToken_endsNonWs.
  - rewrite join_cons by discriminate.
    destruct IH as [E | E].
    + destruct u; [inversion Hr; discriminate|].
      destruct r'; discriminate E.
    + rewrite app_assoc. now apply endsNonWs_app.
Qed.


Lemma replaceCommaStar_not_blank (o : str) :
  o <> [] -> startsWs o = false -> allWs (replaceCommaStar false o) = false.
Proof.
  destruct o as [|c r]; [contradiction|]. intros _ W. simpl in W.
  destruct (Ascii.eqb c comma) eqn:E.
  - apply Ascii.eqb_eq in E. subst c. reflexivity.
  - rewrite (replaceCommaStar_other _ _ _ E W). simpl. now rewrite W.
Qed.

(** Operands that were joined from tokens: formatting them, re-reading the
    result as tokens and formatting again changes nothing. *)
Lemma formatOperands_reformat (r : list str) (config : FormatConfig) :
  Forall (fun t => isToken t = true) r ->
  formatOperands
    (join [space] (words (formatOperands (join [space] r) config))) config
  = formatOperands (join [space] r) config /\
  truthy (join [space] (words (formatOperands (join [space] r) config)))
  = truthy (join [space] r).
Proof.
  intros Hr. destruct (spaceAfterComma config) eqn:Esp.
  - rewrite (formatOperands_spaced (join [space] r) _ Esp).
    pose proof (singleSpaced_join r Hr) as Hss.
    pose proof (singleSpaced_replaceCommaStar _ true false Hss) as HssY.
    cbv iota in HssY.
    rewrite (join_words_singleSpaced _ true HssY).
    assert (Et : trim (replaceCommaStar false (join [space] r))
                 = trimEnd (replaceCommaStar false (join [space] r))).
    { unfold trim.
      now rewrite (startsWs_trimStart_id _ (singleSpaced_startsWs _ HssY)). }
    rewrite Et. split.
    + rewrite (formatOperands_spaced _ _ Esp).
      apply replaceCommaStar_trimEnd, endsNonWs_join, Hr.
    + destruct (join [space] r) as [|c o] eqn:Eo; [reflexivity|].
      cbn [truthy]. apply truthy_true. intros Hnil.
      apply trimEnd_nil_iff in Hnil.
      rewrite replaceCommaStar_not_blank in Hnil; [discriminate|discriminate|].
      now apply singleSpaced_startsWs.
  - rewrite !(formatOperands_plain _ _ Esp), (words_join _ Hr). now split.
Qed.

(** ** Upper-casing keeps tokens, and the casing step is idempotent *)

Lemma toUpperChar_idem (c : ascii) : toUpperChar (toUpperChar c) = toUpperChar c.
Proof. destruct c as [[] [] [] [] [] [] [] []]; reflexivity. Qed.

Lemma toUpperChar_ws (c : ascii) : isWhiteSpace (toUpperChar c) = isWhiteSpace c.
Proof. destruct c as [[] [] [] [] [] [] [] []]; reflexivity. Qed.

Lemma toUpperChar_semicolon (c : ascii) :
  Ascii.eqb (toUpperChar c) semicolon = Ascii.eqb c semicolon.
Proof. destruct c as [[] [] [] [] [] [] [] []]; reflexivity. Qed.

Lemma toUpperChar_commentChar (c : ascii) :
  isCommentChar (toUpperChar c) = isCommentChar c.
Proof. destruct c as [[] [] [] [] [] [] [] []]; reflexivity. Qed.

Lemma toUpperCase_idem (s : str) : toUpperCase (toUpperCase s) = toUpperCase s.
Proof.
  unfold toUpperCase. rewrite map_map. apply map_ext. apply toUpperChar_idem.
Qed.

Lemma isToken_toUpperCase (t : str) : isToken (toUpperCase t) = isToken t.
Proof.
  unfold isToken, toUpperCase. f_equal; [now destruct t|].
  induction t as [|c t IH]; [reflexivity|].
  cbn [map forallb]. now rewrite toUpperChar_ws, IH.
Qed.

Lemma semiFree_toUpperCase (s : str) : semiFree (toUpperCase s) = semiFree s.
Proof.
  unfold semiFree, toUpperCase. induction s as [|c s IH]; [reflexivity|].
  cbn [map forallb]. now rewrite toUpperChar_semicolon, IH.
Qed.

Lemma caseInstruction_cases (inst : str) (config : FormatConfig) :
  caseInstruction inst config = inst \/
  caseInstruction inst config = toUpperCase inst.
Proof.
  unfold caseInstruction.
  destruct (_ && _); [now right|]. destruct (_ && _); [now right|now left].
Qed.

Lemma toUpperCase_caseInstruction (inst : str) (config : FormatConfig) :
  toUpperCase (caseInstruction inst config) = toUpperCase inst.
Proof.
  destruct (caseInstruction_cases inst config) as [-> | ->];
    [reflexivity|apply toUpperCase_idem].
Qed.

Lemma caseInstruction_idem (inst : str) (config : FormatConfig) :
  caseInstruction (caseInstruction inst config) config
  = caseInstruction inst config.
Proof.
  unfold caseInstruction at 1. rewrite toUpperCase_caseInstruction.
  unfold caseInstruction.
  destruct (has INSTRUCTIONS (toUpperCase inst) && uppercaseInstructions config);
    [reflexivity|].
  destruct (has DIRECTIVES (toUpperCase inst) && uppercaseDirectives config);
    reflexivity.
Qed.

Lemma isToken_caseInstruction (inst : str) (config : FormatConfig) :
  isToken (caseInstruction inst config) = isToken inst.
Proof.
  destruct (caseInstruction_cases inst config) as [-> | ->];
    [reflexivity|apply isToken_toUpperCase].
Qed.

Lemma semiFree_caseInstruction (inst : str) (config : FormatConfig) :
  semiFree (caseInstruction inst config) = semiFree inst.
Proof.
  destruct (caseInstruction_cases inst config) as [-> | ->];
    [reflexivity|apply semiFree_toUpperCase].
Qed.


Lemma isToken_truthy (t : str) : isToken t = true -> truthy t = true.
Proof. unfold isToken. intros H. now apply andb_true_iff in H as [H _]. Qed.

Lemma commentLedTokens_caseInstruction (inst : str) (config : FormatConfig)
    (rest : list str) :
  commentLedTokens (caseInstruction inst config :: rest)
  = commentLedTokens (inst :: rest).
Proof.
  destruct (caseInstruction_cases inst config) as [-> | ->]; [reflexivity|].
  destruct inst as [|c t]; [reflexivity|].
  cbn [toUpperCase map commentLedTokens]. apply toUpperChar_commentChar.
Qed.

(** ** The parsed shapes *)

Lemma parseTokens_shape (tokens : list str) (cmt : str) :
  tokens <> [] -> Forall (fun t => isToken t = true) tokens ->
  parsedShape (parseTokens tokens cmt).
Proof.
  intros Hne Hall. destruct tokens as [|t [|u r]]; [contradiction| |].
  - inversion Hall as [|? ? Ht _]; subst.
    rewrite parseTokens_one. destruct (isInstOrDir (toUpperCase t)) eqn:E.
    + now apply (shapePlain t [] cmt).
    + now apply shapeLabelOnly.
  - inversion Hall as [|? ? Ht Hrest]; subst.
    inversion Hrest as [|? ? Hu Hr]; subst.
    rewrite parseTokens_many. destruct (isInstOrDir (toUpperCase t)) eqn:E.
    + now apply shapePlain.
    + now apply shapeLabelled.
Qed.

Lemma labelField_token (parsed : ParsedLine) (config : FormatConfig) :
  truthy (label parsed) = true ->
  exists w, allWs w = true /\ startsWs w = true /\
            labelField parsed config = label parsed ++ w.
Proof.
  intros H. unfold labelField. rewrite H.
  destruct (Z.of_nat (length (label parsed)) >=? instructionColumn config) eqn:E.
  - exists [space]. now repeat split.
  - unfold padEnd.
    assert (Hlt : Z.of_nat (length (label parsed)) < instructionColumn config).
    { destruct (Z.geb_spec (Z.of_nat (length (label parsed)))
                  (instructionColumn config)); [discriminate|lia]. }
    destruct (Z.to_nat (instructionColumn config
                        - Z.of_nat (length (label parsed)))) as [|n] eqn:En;
      [lia|].
    exists (space :: repeat space n). repeat split.
    cbn [allWs forallb]. rewrite space_ws. cbn [andb].
    apply forallb_forall. intros x Hx. apply repeat_spec in Hx. now subst.
Qed.

Lemma allWs_repeat_space (n : nat) : allWs (repeat space n) = true.
Proof.
  apply forallb_forall. intros x Hx. apply repeat_spec in Hx. now subst.
Qed.

Lemma labelField_nil (parsed : ParsedLine) (config : FormatConfig) :
  label parsed = [] -> allWs (labelField parsed config) = true.
Proof.
  intros H. unfold labelField. rewrite H. cbn [truthy].
  unfold padEnd. cbn [app]. apply allWs_repeat_space.
Qed.

Lemma words_app_space (a b : str) :
  words ((a ++ [space]) ++ b) = words a ++ words b.
Proof.
  rewrite <- app_assoc. rewrite words_app_ws by (right; reflexivity).
  cbn [app]. now rewrite (words_ws_cons _ _ space_ws).
Qed.

(** The tokens of the rendered code portion are the label, the cased
    instruction and the tokens of the formatted operands. *)
Lemma words_renderCode (parsed : ParsedLine) (config : FormatConfig) :
  parsedShape parsed ->
  words (renderCode parsed config) = renderedTokens parsed config.
Proof.
  intros Hshape. unfold renderCode, renderedTokens.
  assert (Hfront :
    words (if truthy (instruction parsed)
           then labelField parsed config
                ++ caseInstruction (instruction parsed) config
           else labelField parsed config)
    = (if truthy (label parsed) then [label parsed] else [])
      ++ (if truthy (instruction parsed)
          then [caseInstruction (instruction parsed) config] else [])).
  { destruct Hshape as [t cmt Ht Hun | t u r cmt Ht Hun Hu Hr | t r cmt Ht Hk Hr];
      cbn [label instruction operands comment truthy].
    - rewrite (isToken_truthy _ Ht).
      destruct (labelField_token (mkParsedLine t [] [] cmt) config
                  (isToken_truthy _ Ht)) as (w & Hw & _ & ->).
      cbn [label]. rewrite (words_app_allWs_r _ _ Hw). now apply words_token.
    - rewrite (isToken_truthy _ Ht), (isToken_truthy _ Hu).
      destruct (labelField_token (mkParsedLine t u (join [space] r) cmt) config
                  (isToken_truthy _ Ht)) as (w & Hw & Hs & ->).
      cbn [label]. rewrite <- app_assoc.
      rewrite words_app_ws.
      + rewrite (words_app_allWs_l _ _ Hw), (words_token _ Ht).
        rewrite words_token by now rewrite isToken_caseInstruction.
        reflexivity.
      + right. destruct w; [discriminate|exact Hs].
    - rewrite (isToken_truthy _ Ht).
      rewrite words_app_allWs_l by now apply labelField_nil.
      rewrite words_token by now rewrite isToken_caseInstruction.
      reflexivity. }
  cbv zeta. destruct (truthy (operands parsed)) eqn:Eo.
  - rewrite words_app_space, words_trimEnd, app_assoc. f_equal. exact Hfront.
  - apply truthy_false in Eo. rewrite Eo.
    cbn [formatOperands truthy negb words]. rewrite app_assoc, app_nil_r.
    exact Hfront.
Qed.

Lemma parsedShape_operands (parsed : ParsedLine) :
  parsedShape parsed ->
  exists r, Forall (fun t => isToken t = true) r
            /\ operands parsed = join [space] r.
Proof.
  intros [t cmt _ _ | t u r cmt _ _ _ Hr | t r cmt _ _ Hr]; cbn [operands].
  - exists []. now split.
  - now exists r.
  - now exists r.
Qed.

Lemma parsedShape_some_code (parsed : ParsedLine) :
  parsedShape parsed ->
  label parsed <> [] \/ instruction parsed <> [] \/ operands parsed <> [].
Proof.
  intros [t cmt Ht _ | t u r cmt Ht _ _ _ | t r cmt Ht _ _];
    cbn [label instruction]; apply isToken_truthy, truthy_true in Ht; auto.
Qed.

(** Reading the rendered tokens back gives the label, the cased instruction
    and the re-joined operands. *)
Lemma parseTokens_renderedTokens (parsed : ParsedLine) (config : FormatConfig) :
  parsedShape parsed ->
  parseTokens (renderedTokens parsed config) (comment parsed)
  = reparsed parsed config.
Proof.
  intros [t cmt Ht Hun | t u r cmt Ht Hun Hu Hr | t r cmt Ht Hk Hr];
    unfold renderedTokens, reparsed; cbn [label instruction operands comment].
  - rewrite (isToken_truthy _ Ht). cbn [truthy formatOperands negb words app].
    rewrite parseTokens_one, Hun. reflexivity.
  - rewrite (isToken_truthy _ Ht), (isToken_truthy _ Hu). cbn [app].
    rewrite parseTokens_many, Hun. reflexivity.
  - rewrite (isToken_truthy _ Ht). cbn [truthy app].
    destruct (words (formatOperands (join [space] r) config)) as [|x xs].
    + rewrite parseTokens_one, toUpperCase_caseInstruction, Hk. reflexivity.
    + rewrite parseTokens_many, toUpperCase_caseInstruction, Hk. reflexivity.
Qed.

Lemma truthy_caseInstruction (inst : str) (config : FormatConfig) :
  truthy (caseInstruction inst config) = truthy inst.
Proof.
  destruct (caseInstruction_cases inst config) as [-> | ->];
    [reflexivity|now destruct inst].
Qed.

(** Rendering what was read back gives the same code portion. *)
Lemma renderCode_reparsed (parsed : ParsedLine) (config : FormatConfig) :
  parsedShape parsed ->
  renderCode (reparsed parsed config) config = renderCode parsed config.
Proof.
  intros Hshape.
  destruct (parsedShape_operands _ Hshape) as (r & Hr & Eo).
  destruct (formatOperands_reformat r config Hr) as [Hfmt Htruthy].
  unfold renderCode, reparsed, labelField.
  cbn [label instruction operands comment].
  rewrite truthy_caseInstruction, caseInstruction_idem.
  rewrite Eo, Hfmt, Htruthy. reflexivity.
Qed.

(** ** Semicolons *)

Lemma semiFree_app (a b : str) : semiFree (a ++ b) = semiFree a && semiFree b.
Proof. apply forallb_app. Qed.

Lemma semiFree_In (s : str) : semiFree s = true -> ~ In semicolon s.
Proof.
  intros H Hin. unfold semiFree in H. rewrite forallb_forall in H.
  specialize (H _ Hin). now rewrite Ascii.eqb_refl in H.
Qed.

Lemma In_semiFree (s : str) : ~ In semicolon s -> semiFree s = true.
Proof.
  intros H. apply forallb_forall. intros x Hx.
  destruct (Ascii.eqb x semicolon) eqn:E; [|reflexivity].
  apply Ascii.eqb_eq in E. subst. contradiction.
Qed.

Lemma semiFree_trimEnd (s : str) : semiFree s = true -> semiFree (trimEnd s) = true.
Proof.
  destruct (trimEnd_split s) as (w & _ & E). intros H.
  rewrite E, semiFree_app in H. now apply andb_true_iff in H as [H _].
Qed.

Lemma semiFree_repeat_space (n : nat) : semiFree (repeat space n) = true.
Proof.
  apply forallb_forall. intros x Hx. apply repeat_spec in Hx. now subst.
Qed.

Lemma semiFree_replaceCommaStar (s : str) (k : bool) :
  semiFree s = true -> semiFree (replaceCommaStar k s) = true.
Proof.
  revert k. induction s as [|c r IH]; intros k H; [reflexivity|].
  cbn [semiFree forallb] in H. apply andb_true_iff in H as [Hc Hr].
  destruct (char_cases c) as [-> | [W | [E W]]].
  - rewrite replaceCommaStar_comma. cbn [semiFree forallb].
    now apply IH.
  - destruct k.
    + rewrite (replaceCommaStar_ws_skip _ _ W). now apply IH.
    + rewrite (replaceCommaStar_ws_keep _ _ W). cbn [semiFree forallb].
      rewrite Hc. now apply IH.
  - rewrite (replaceCommaStar_other _ _ _ E W). cbn [semiFree forallb].
    rewrite Hc. now apply IH.
Qed.

Lemma semiFree_formatOperands (ops : str) (config : FormatConfig) :
  semiFree ops = true -> semiFree (formatOperands ops config) = true.
Proof.
  intros H. destruct (spaceAfterComma config) eqn:E.
  - rewrite (formatOperands_spaced _ _ E). now apply semiFree_replaceCommaStar.
  - now rewrite (formatOperands_plain _ _ E).
Qed.

Lemma semiFree_labelField (parsed : ParsedLine) (config : FormatConfig) :
  semiFree (label parsed) = true -> semiFree (labelField parsed config) = true.
Proof.
  intros H. unfold labelField, padEnd.
  destruct (truthy (label parsed)).
  - destruct (_ >=? _); rewrite semiFree_app, H; [reflexivity|].
    apply semiFree_repeat_space.
  - cbn [app]. apply semiFree_repeat_space.
Qed.

Lemma semiFree_renderCode (parsed : ParsedLine) (config : FormatConfig) :
  semiFree (label parsed) = true ->
  semiFree (instruction parsed) = true ->
  semiFree (operands parsed) = true ->
  semiFree (renderCode parsed config) = true.
Proof.
  intros Hl Hi Ho. unfold renderCode.
  assert (Hf : semiFree (if truthy (instruction parsed)
                         then labelField parsed config
                              ++ caseInstruction (instruction parsed) config
                         else labelField parsed config) = true).
  { destruct (truthy (instruction parsed)).
    - rewrite semiFree_app, semiFree_caseInstruction, Hi,
        (semiFree_labelField _ _ Hl). reflexivity.
    - now apply semiFree_labelField. }
  cbv zeta. destruct (truthy (operands parsed)); [|exact Hf].
  rewrite !semiFree_app, (semiFree_formatOperands _ _ Ho).
  rewrite andb_true_r. apply andb_true_iff. split; [|reflexivity].
  apply semiFree_trimEnd. exact Hf.
Qed.

Lemma words_semiFree (s : str) :
  semiFree s = true -> Forall (fun t => semiFree t = true) (words s).
Proof.
  induction s as [|c r IH]; [constructor|].
  intros H. cbn [semiFree forallb] in H. apply andb_true_iff in H as [Hc Hr].
  specialize (IH Hr).
  assert (H1 : semiFree [c] = true) by (cbn [semiFree forallb]; now rewrite Hc).
  destruct (isWhiteSpace c) eqn:W.
  - now rewrite (words_ws_cons _ _ W).
  - rewrite (words_nonws_cons _ _ W). destruct (startsWs r).
    + now constructor.
    + destruct r as [|c' r']; [now constructor|].
      destruct (words (c' :: r')) as [|t ts]; [now constructor|].
      inversion IH; subst. constructor; [|assumption].
      cbn [semiFree forallb]. rewrite Hc. assumption.
Qed.

Lemma semiFree_join (r : list str) :
  Forall (fun t => semiFree t = true) r -> semiFree (join [space] r) = true.
Proof.
  induction 1 as [|t r Ht Hr IH]; [reflexivity|].
  destruct r as [|u r']; [exact Ht|].
  rewrite join_cons by discriminate.
  now rewrite !semiFree_app, Ht, IH.
Qed.

Lemma parseTokens_semiFree (tokens : list str) (cmt : str) :
  Forall (fun t => semiFree t = true) tokens ->
  semiFree (label (parseTokens tokens cmt)) = true /\
  semiFree (instruction (parseTokens tokens cmt)) = true /\
  semiFree (operands (parseTokens tokens cmt)) = true.
Proof.
  intros H. destruct tokens as [|t [|u r]].
  - now repeat split.
  - inversion H; subst. rewrite parseTokens_one.
    destruct (isInstOrDir _); now repeat split.
  - inversion H as [|? ? Ht Hrest]; subst.
    inversion Hrest as [|? ? Hu Hr]; subst.
    rewrite parseTokens_many.
    destruct (isInstOrDir _); cbn [label instruction operands];
      repeat split; trivial; now apply semiFree_join.
Qed.

(** ** Comment-led lines *)

Lemma startsWith_one (s : str) (x : ascii) :
  startsWith s [x] = match s with c :: _ => Ascii.eqb x c | [] => false end.
Proof. destruct s; [reflexivity|]. cbn [startsWith]. apply andb_true_r. Qed.

Lemma commentLed_cons (c : ascii) (r : str) :
  isWhiteSpace c = false -> commentLed (c :: r) = isCommentChar c.
Proof.
  intros W. unfold commentLed, trimStart, lit. cbn [dropWhile list_ascii_of_string].
  rewrite W, !startsWith_one. reflexivity.
Qed.

Lemma commentLed_ws_cons (c : ascii) (r : str) :
  isWhiteSpace c = true -> commentLed (c :: r) = commentLed r.
Proof.
  intros W. unfold commentLed, trimStart. cbn [dropWhile]. now rewrite W.
Qed.

Lemma commentLed_words (s : str) : commentLed s = commentLedTokens (words s).
Proof.
  induction s as [|c r IH]; [reflexivity|].
  destruct (isWhiteSpace c) eqn:W.
  - now rewrite (commentLed_ws_cons _ _ W), (words_ws_cons _ _ W).
  - rewrite (commentLed_cons _ _ W), (words_nonws_cons _ _ W).
    destruct (startsWs r); [reflexivity|].
    destruct r as [|c' r']; [reflexivity|].
    now destruct (words (c' :: r')).
Qed.

Lemma commentLed_app (a b : str) :
  allWs a = false -> commentLed (a ++ b) = commentLed a.
Proof.
  induction a as [|c a IH]; [discriminate|].
  intros H. cbn [app]. destruct (isWhiteSpace c) eqn:W.
  - rewrite !(commentLed_ws_cons _ _ W). apply IH.
    cbn [allWs forallb] in H. now rewrite W in H.
  - now rewrite !(commentLed_cons _ _ W).
Qed.

Lemma commentLed_true_trimStart (s : str) :
  commentLed s = true ->
  exists c r, trimStart s = c :: r /\ isWhiteSpace c = false
              /\ isCommentChar c = true.
Proof.
  induction s as [|c r IH]; [discriminate|].
  destruct (isWhiteSpace c) eqn:W.
  - rewrite (commentLed_ws_cons _ _ W). intros H.
    destruct (IH H) as (c' & r' & E & W' & Hc).
    exists c', r'. unfold trimStart in *. cbn [dropWhile]. now rewrite W.
  - rewrite (commentLed_cons _ _ W). intros H. exists c, r.
    unfold trimStart. cbn [dropWhile]. now rewrite W.
Qed.

(** A comment-led line is formatted by the comment-only branch. *)
Lemma formatLine_commentLed (line : str) (config : FormatConfig) :
  commentLed line = true ->
  formatLine line config
  = if streq (trimStart line) line then trimStart line
    else padEnd [] (commentColumn config) ++ trimStart line.
Proof.
  intros H.
  destruct (commentLed_true_trimStart _ H) as (c & r & E & W & Hc).
  assert (Hnb : allWs line = false).
  { destruct (allWs line) eqn:Ea; [|reflexivity].
    apply trimStart_nil_iff in Ea. congruence. }
  unfold formatLine, parseLine. fold (commentLed line).
  rewrite truthy_trim, Hnb, H. cbn [negb label instruction operands comment].
  rewrite E. reflexivity.
Qed.

Lemma trimStart_app_allWs (w s : str) :
  allWs w = true -> trimStart (w ++ s) = trimStart s.
Proof.
  intros H. unfold trimStart. rewrite dropWhile_app.
  fold (allWs w). now rewrite H.
Qed.

Lemma trimStart_idem (s : str) : trimStart (trimStart s) = trimStart s.
Proof.
  apply startsWs_trimStart_id, startsWs_trimStart.
Qed.

Lemma commentLed_trimStart (s : str) : commentLed (trimStart s) = commentLed s.
Proof. unfold commentLed. now rewrite trimStart_idem. Qed.

Lemma commentLed_app_allWs (w s : str) :
  allWs w = true -> commentLed (w ++ s) = commentLed s.
Proof.
  intros H. unfold commentLed. now rewrite (trimStart_app_allWs _ _ H).
Qed.

(** Formatting a comment-led line twice is formatting it once. *)
Lemma formatLine_idempotent_commentLed (line : str) (config : FormatConfig) :
  commentLed line = true ->
  formatLine (formatLine line config) config = formatLine line config.
Proof.
  intros H. rewrite (formatLine_commentLed line config H).
  destruct (streq (trimStart line) line) eqn:E.
  - rewrite formatLine_commentLed by now rewrite commentLed_trimStart.
    now rewrite trimStart_idem, streq_refl.
  - unfold padEnd. cbn [app].
    set (w := repeat space (Z.to_nat (commentColumn config - Z.of_nat (length (@nil ascii))))).
    assert (Hw : allWs w = true) by apply allWs_repeat_space.
    rewrite formatLine_commentLed
      by now rewrite (commentLed_app_allWs _ _ Hw), commentLed_trimStart.
    rewrite (trimStart_app_allWs _ _ Hw), trimStart_idem.
    destruct (streq (trimStart line) (w ++ trimStart line)) eqn:E2.
    + now apply streq_eq in E2.
    + unfold padEnd. reflexivity.
Qed.

(** ** Lines with code are read back as they were rendered *)

Lemma parseLine_split (code rest : str) :
  ~ In semicolon code ->
  (rest = [] \/ exists r, rest = semicolon :: r) ->
  parseLine (code ++ rest)
  = if commentLed (code ++ rest)
    then mkParsedLine [] [] [] (trimStart (code ++ rest))
    else if allWs code then mkParsedLine [] [] [] (trim rest)
    else parseTokens (words code) (trim rest).
Proof. exact (parseLine_app code rest). Qed.

Lemma allWs_app (a b : str) : allWs (a ++ b) = allWs a && allWs b.
Proof. apply forallb_app. Qed.

Lemma placeComment_form (formatted : str) (parsed : ParsedLine)
    (config : FormatConfig) :
  inlineComment (comment parsed) ->
  exists g, allWs g = true /\ semiFree g = true /\
    placeComment formatted parsed config
    = (trimEnd formatted ++ g) ++ comment parsed.
Proof.
  intros [E | [(r & E) Hends]]; unfold placeComment.
  - rewrite E. cbn [truthy]. exists []. repeat split.
    now rewrite !app_nil_r.
  - assert (Ht : truthy (comment parsed) = true) by now rewrite E.
    rewrite Ht. destruct (_ <? _).
    + unfold padEnd. eexists. split; [apply allWs_repeat_space|].
      split; [apply semiFree_repeat_space|].
      now apply trimEnd_app_ends.
    + exists (lit "  "). repeat split.
      rewrite <- app_assoc. apply trimEnd_app_ends. now apply endsNonWs_app.
Qed.

Lemma trim_inlineComment (cmt : str) : inlineComment cmt -> trim cmt = cmt.
Proof.
  intros [-> | [(r & E) Hends]]; [reflexivity|].
  unfold trim. rewrite startsWs_trimStart_id by now rewrite E.
  now apply endsNonWs_trimEnd.
Qed.

Lemma inlineComment_trim (rest : str) :
  rest = [] \/ (exists r, rest = semicolon :: r) -> inlineComment (trim rest).
Proof.
  intros [-> | (r & ->)]; [now left|]. right.
  assert (E : trim (semicolon :: r) = trimEnd (semicolon :: r)) by reflexivity.
  assert (W : isWhiteSpace semicolon = false) by reflexivity.
  split.
  - rewrite E, trimEnd_cons, W. destruct (allWs r); eauto.
  - apply trim_endsNonWs. rewrite E, trimEnd_cons, W.
    destruct (allWs r); discriminate.
Qed.

Lemma parsedShape_label_or_instruction (parsed : ParsedLine) :
  parsedShape parsed -> label parsed <> [] \/ instruction parsed <> [].
Proof.
  intros [t cmt Ht _ | t u r cmt Ht _ _ _ | t r cmt Ht _ _];
    cbn [label instruction]; apply isToken_truthy, truthy_true in Ht; auto.
Qed.

Lemma renderedTokens_nonnil (parsed : ParsedLine) (config : FormatConfig) :
  parsedShape parsed -> renderedTokens parsed config <> [].
Proof.
  intros [t cmt Ht _ | t u r cmt Ht _ _ _ | t r cmt Ht _ _];
    unfold renderedTokens; cbn [label instruction];
    rewrite (isToken_truthy _ Ht); discriminate.
Qed.

Lemma renderedTokens_commentLed (tokens : list str) (cmt : str)
    (config : FormatConfig) :
  Forall (fun t => isToken t = true) tokens ->
  commentLedTokens (renderedTokens (parseTokens tokens cmt) config)
  = commentLedTokens tokens.
Proof.
  intros H. destruct tokens as [|t [|u r]]; [reflexivity| |].
  - inversion H as [|? ? Ht _]; subst. rewrite parseTokens_one.
    destruct (isInstOrDir _); unfold renderedTokens;
      cbn [label instruction operands]; rewrite (isToken_truthy _ Ht);
      cbn [truthy app]; [|reflexivity].
    now rewrite commentLedTokens_caseInstruction.
  - inversion H as [|? ? Ht Hrest]; subst.
    inversion Hrest as [|? ? Hu Hr]; subst. rewrite parseTokens_many.
    destruct (isInstOrDir _); unfold renderedTokens;
      cbn [label instruction operands]; rewrite (isToken_truthy _ Ht);
      cbn [truthy app]; [|reflexivity].
    now rewrite commentLedTokens_caseInstruction.
Qed.

(** What the renderer wrote for a line with code is parsed back into the
    same label, the cased instruction, the re-joined formatted operands and
    the same comment. *)
Lemma parseLine_rendered (parsed : ParsedLine) (config : FormatConfig) :
  parsedShape parsed ->
  semiFree (label parsed) = true ->
  semiFree (instruction parsed) = true ->
  semiFree (operands parsed) = true ->
  commentLedTokens (renderedTokens parsed config) = false ->
  inlineComment (comment parsed) ->
  parseLine (placeComment (renderCode parsed config) parsed config)
  = reparsed parsed config.
Proof.
  intros Hshape Hl Hi Ho Hled Hcmt.
  destruct (placeComment_form (renderCode parsed config) parsed config Hcmt)
    as (g & Hg & Hsg & ->).
  pose proof (words_renderCode parsed config Hshape) as Hw.
  assert (Hnb : allWs (trimEnd (renderCode parsed config) ++ g) = false).
  { rewrite allWs_app, allWs_trimEnd.
    destruct (allWs (renderCode parsed config)) eqn:Ea; [|reflexivity].
    apply words_allWs in Ea. rewrite Hw in Ea.
    now apply renderedTokens_nonnil in Ea. }
  assert (Hsemi : ~ In semicolon (trimEnd (renderCode parsed config) ++ g)).
  { apply semiFree_In. rewrite semiFree_app, Hsg, andb_true_r.
    now apply semiFree_trimEnd, semiFree_renderCode. }
  assert (Hrest : comment parsed = [] \/ exists r, comment parsed = semicolon :: r).
  { destruct Hcmt as [E | [E _]]; auto. }
  rewrite (parseLine_split _ _ Hsemi Hrest).
  rewrite (commentLed_app _ _ Hnb), commentLed_words, Hnb.
  rewrite (words_app_allWs_r _ _ Hg), words_trimEnd, Hw, Hled.
  rewrite (trim_inlineComment _ Hcmt).
  now apply parseTokens_renderedTokens.
Qed.

(** ** Idempotence *)

(** C1. Formatting a formatted line gives the formatted line again, for
    every line and every configuration. *)
Theorem formatLine_idempotent (line : str) (config : FormatConfig) :
  formatLine (formatLine line config) config = formatLine line config.
Proof.
  destruct (allWs line) eqn:Eb.
  - assert (E : formatLine line config = []).
    { unfold formatLine. now rewrite truthy_trim, Eb. }
    rewrite E. reflexivity.
  - destruct (commentLed line) eqn:Ecl;
      [now apply formatLine_idempotent_commentLed|].
    destruct (split_at_semicolon line) as (code & rest & -> & Hc & Hr).
    assert (Hcode : allWs code = false).
    { destruct (allWs code) eqn:Ea; [|reflexivity].
      destruct Hr as [-> | (r & ->)].
      - rewrite app_nil_r in Eb. congruence.
      - rewrite (commentLed_app_allWs _ _ Ea) in Ecl.
        rewrite commentLed_cons in Ecl by reflexivity. discriminate Ecl. }
    pose proof (parseLine_split code rest Hc Hr) as Hp.
    rewrite Ecl, Hcode in Hp.
    pose proof (words_tokens code) as Htok.
    assert (Hne : words code <> []).
    { intros E. apply words_nil_iff in E. congruence. }
    pose proof (parseTokens_shape _ (trim rest) Hne Htok) as Hshape.
    destruct (parseTokens_semiFree (words code) (trim rest)
                (words_semiFree _ (In_semiFree _ Hc))) as (Hl & Hi & Ho).
    assert (Hled : commentLedTokens
                     (renderedTokens (parseTokens (words code) (trim rest)) config)
                   = false).
    { rewrite (renderedTokens_commentLed _ _ _ Htok), <- commentLed_words.
      now rewrite <- (commentLed_app code rest Hcode). }
    assert (Hcmt : inlineComment (comment (parseTokens (words code) (trim rest)))).
    { rewrite parseTokens_comment. now apply inlineComment_trim. }
    assert (Hfmt : formatLine (code ++ rest) config
                   = placeComment
                       (renderCode (parseTokens (words code) (trim rest)) config)
                       (parseTokens (words code) (trim rest)) config).
    { rewrite formatLine_code; rewrite Hp; [reflexivity|].
      now apply parsedShape_some_code. }
    rewrite Hfmt.
    pose proof (parseLine_rendered _ config Hshape Hl Hi Ho Hled Hcmt) as Hre.
    rewrite formatLine_code; rewrite Hre.
    + now rewrite (renderCode_reparsed _ _ Hshape).
    + destruct (parsedShape_label_or_instruction _ Hshape) as [H | H].
      * now left.
      * right; left. cbn [reparsed instruction].
        apply truthy_true. rewrite truthy_caseInstruction.
        now apply truthy_true.
Qed.

(** * Further properties of the parser and the renderer *)

(** ** What [parseLine] returns for each kind of line *)

Lemma parseLine_commentLed (line : str) :
  commentLed line = true ->
  parseLine line = mkParsedLine [] [] [] (trimStart line).
Proof.
  intros H. unfold parseLine. fold (commentLed line). now rewrite H.
Qed.

Lemma reparsed_comment_only (cmt : str) (config : FormatConfig) :
  reparsed (mkParsedLine [] [] [] cmt) config = mkParsedLine [] [] [] cmt.
Proof. reflexivity. Qed.

(** A line that is neither blank nor comment-led has code: its parse has
    one of the three shapes, holds no semicolon outside the comment, does not
    start with a comment character, and has a trimmed comment. *)
Lemma parseLine_code_line (line : str) (config : FormatConfig) :
  allWs line = false -> commentLed line = false ->
  parsedShape (parseLine line) /\
  (semiFree (label (parseLine line)) = true /\
   semiFree (instruction (parseLine line)) = true /\
   semiFree (operands (parseLine line)) = true) /\
  commentLedTokens (renderedTokens (parseLine line) config) = false /\
  inlineComment (comment (parseLine line)).
Proof.
  intros Eb Ecl.
  destruct (split_at_semicolon line) as (code & rest & -> & Hc & Hr).
  assert (Hcode : allWs code = false).
  { destruct (allWs code) eqn:Ea; [|reflexivity].
    destruct Hr as [-> | (r & ->)].
    - rewrite app_nil_r in Eb. congruence.
    - rewrite (commentLed_app_allWs _ _ Ea) in Ecl.
      rewrite commentLed_cons in Ecl by reflexivity. discriminate Ecl. }
  rewrite (parseLine_split code rest Hc Hr), Ecl, Hcode.
  pose proof (words_tokens code) as Htok.
  assert (Hne : words code <> []).
  { intros E. apply words_nil_iff in E. congruence. }
  split; [now apply parseTokens_shape|].
  split; [apply parseTokens_semiFree, words_semiFree, In_semiFree, Hc|].
  split.
  - rewrite (renderedTokens_commentLed _ _ _ Htok), <- commentLed_words.
    now rewrite <- (commentLed_app code rest Hcode).
  - rewrite parseTokens_comment. now apply inlineComment_trim.
Qed.

Lemma formatLine_blank (line : str) (config : FormatConfig) :
  allWs line = true -> formatLine line config = [].
Proof. intros H. unfold formatLine. now rewrite truthy_trim, H. Qed.

Lemma formatLine_code_line (line : str) (config : FormatConfig) :
  allWs line = false -> commentLed line = false ->
  formatLine line config
  = placeComment (renderCode (parseLine line) config) (parseLine line) config.
Proof.
  intros Eb Ecl. apply formatLine_code, parsedShape_some_code.
  now apply (parseLine_code_line line config).
Qed.

(** The three kinds of lines and what [formatLine] returns for each. *)
Lemma formatLine_kinds (line : str) (config : FormatConfig) :
  (allWs line = true /\ formatLine line config = []) \/
  (allWs line = false /\ commentLed line = true /\
   exists w, allWs w = true /\ formatLine line config = w ++ trimStart line) \/
  (allWs line = false /\ commentLed line = false /\
   formatLine line config
   = placeComment (renderCode (parseLine line) config) (parseLine line) config).
Proof.
  destruct (allWs line) eqn:Eb; [left; split; [reflexivity|]|right].
  - now apply formatLine_blank.
  - destruct (commentLed line) eqn:Ecl; [left|right].
    + repeat split. rewrite (formatLine_commentLed _ _ Ecl).
      destruct (streq (trimStart line) line).
      * now exists [].
      * unfold padEnd. cbn [app]. eexists. split; [apply allWs_repeat_space|].
        reflexivity.
    + repeat split. now apply formatLine_code_line.
Qed.

Lemma renderCode_not_blank (parsed : ParsedLine) (config : FormatConfig) :
  parsedShape parsed -> allWs (renderCode parsed config) = false.
Proof.
  intros Hshape. destruct (allWs (renderCode parsed config)) eqn:Ea; [|reflexivity].
  apply words_allWs in Ea. rewrite (words_renderCode _ _ Hshape) in Ea.
  now apply renderedTokens_nonnil in Ea.
Qed.

(** ** Reading a formatted line back *)

(** The parse of a formatted line, for each kind of line. *)
Lemma parseLine_formatted (line : str) (config : FormatConfig) :
  parseLine (formatLine line config) = reparsed (parseLine line) config.
Proof.
  destruct (formatLine_kinds line config)
    as [[Eb E] | [(Eb & Ecl & w & Hw & E) | (Eb & Ecl & E)]]; rewrite E.
  - now rewrite (parseLine_blank _ Eb).
  - rewrite (parseLine_commentLed _ Ecl), reparsed_comment_only.
    rewrite parseLine_commentLed
      by now rewrite (commentLed_app_allWs _ _ Hw), commentLed_trimStart.
    now rewrite (trimStart_app_allWs _ _ Hw), trimStart_idem.
  - destruct (parseLine_code_line line config Eb Ecl)
      as (Hshape & (Hl & Hi & Ho) & Hled & Hcmt).
    now apply parseLine_rendered.
Qed.

(** X1. Parsing a formatted line gives the parse of the original line with
    the instruction cased as the renderer cases it and the operands spaced
    as the renderer spaces them; label and comment are read back
    unchanged. *)
Theorem parseLine_formatLine (line : str) (config : FormatConfig) :
  parseLine (formatLine line config) = reparsed (parseLine line) config.
Proof. exact (parseLine_formatted line config). Qed.

(** A formatted line is formatted into itself. *)
Lemma formatLine_again (line : str) (config : FormatConfig) :
  formatLine (formatLine line config) config = formatLine line config.
Proof.
  destruct (formatLine_kinds line config)
    as [[Eb E] | [(Eb & Ecl & _) | (Eb & Ecl & E)]].
  - rewrite E. reflexivity.
  - now apply formatLine_idempotent_commentLed.
  - destruct (parseLine_code_line line config Eb Ecl) as (Hshape & _).
    rewrite formatLine_code; rewrite parseLine_formatted.
    + rewrite (renderCode_reparsed _ _ Hshape). exact (eq_sym E).
    + destruct (parsedShape_label_or_instruction _ Hshape) as [H | H].
      * now left.
      * right; left. cbn [reparsed instruction].
        apply truthy_true. rewrite truthy_caseInstruction.
        now apply truthy_true.
Qed.

(** X2. [formatLine] returns the empty string for blank lines and for no
    other line. *)
Theorem formatLine_empty_iff_blank (line : str) (config : FormatConfig) :
  formatLine line config = [] <-> allWs line = true.
Proof.
  split; [|apply formatLine_blank].
  destruct (formatLine_kinds line config)
    as [[Eb E] | [(Eb & Ecl & w & Hw & E) | (Eb & Ecl & E)]]; [trivial| |];
    rewrite E; intros Hnil; exfalso.
  - apply app_eq_nil in Hnil as [_ Hnil].
    apply trimStart_nil_iff in Hnil. congruence.
  - destruct (parseLine_code_line line config Eb Ecl) as (Hshape & _ & _ & Hcmt).
    destruct (placeComment_form (renderCode (parseLine line) config)
                (parseLine line) config Hcmt) as (g & _ & _ & Eg).
    rewrite Eg in Hnil. apply app_eq_nil in Hnil as [Hnil _].
    apply app_eq_nil in Hnil as [Hnil _].
    apply trimEnd_nil_iff in Hnil.
    now rewrite (renderCode_not_blank _ _ Hshape) in Hnil.
Qed.

(** X3. The comment that [parseLine] finds is the end of the formatted line,
    character for character. *)
Theorem formatLine_ends_with_comment (line : str) (config : FormatConfig) :
  exists pre, formatLine line config = pre ++ comment (parseLine line).
Proof.
  destruct (formatLine_kinds line config)
    as [[Eb E] | [(Eb & Ecl & w & Hw & E) | (Eb & Ecl & E)]]; rewrite E.
  - exists []. now rewrite (parseLine_blank _ Eb).
  - exists w. now rewrite (parseLine_commentLed _ Ecl).
  - destruct (parseLine_code_line line config Eb Ecl) as (_ & _ & _ & Hcmt).
    destruct (placeComment_form (renderCode (parseLine line) config)
                (parseLine line) config Hcmt) as (g & _ & _ & Eg).
    rewrite Eg. eauto.
Qed.

(** ** Where the instruction is placed *)

Lemma trimEnd_keeps_prefix (a t b : str) :
  endsNonWs t = true -> exists b', trimEnd (a ++ t ++ b) = a ++ t ++ b'.
Proof.
  intros Ht. rewrite app_assoc, trimEnd_app. destruct (allWs b).
  - exists []. now rewrite (trimEnd_app_ends _ _ Ht), app_nil_r.
  - exists (trimEnd b). now rewrite <- app_assoc.
Qed.

Lemma placeComment_keeps_prefix (a t : str) (formatted : str)
    (parsed : ParsedLine) (config : FormatConfig) :
  endsNonWs t = true -> (exists b, formatted = a ++ t ++ b) ->
  exists b', placeComment formatted parsed config = a ++ t ++ b'.
Proof.
  intros Ht (b & ->). unfold placeComment.
  destruct (trimEnd_keeps_prefix a t b Ht) as (b1 & E1).
  destruct (truthy (comment parsed)); [|eauto].
  rewrite E1. destruct (_ <? _); unfold padEnd; rewrite <- !app_assoc;
    now apply trimEnd_keeps_prefix.
Qed.

Lemma renderCode_prefix (parsed : ParsedLine) (config : FormatConfig) :
  isToken (instruction parsed) = true ->
  exists b, renderCode parsed config
            = labelField parsed config
              ++ caseInstruction (instruction parsed) config ++ b.
Proof.
  intros Ht. unfold renderCode. rewrite (isToken_truthy _ Ht).
  assert (He : endsNonWs (caseInstruction (instruction parsed) config) = true)
    by (apply isToken_endsNonWs; now rewrite isToken_caseInstruction).
  destruct (truthy (operands parsed)).
  - rewrite (trimEnd_app_ends _ _ He). rewrite <- !app_assoc. eauto.
  - exists []. now rewrite app_nil_r.
Qed.

(** X4. On a line with an instruction the output starts with the label
    field and the cased instruction.  The field is the label padded with
    spaces to [instructionColumn] when the label is shorter than that (so the
    instruction starts at that column), a label of that length or more
    followed by one space, and nothing when there is no label and the column
    is not positive. *)
Theorem instruction_placement (line : str) (config : FormatConfig) :
  instruction (parseLine line) <> [] ->
  exists field tail,
    formatLine line config
    = field ++ caseInstruction (instruction (parseLine line)) config ++ tail /\
    (Z.of_nat (length (label (parseLine line))) < instructionColumn config ->
     field = label (parseLine line)
             ++ repeat space (length field - length (label (parseLine line))) /\
     Z.of_nat (length field) = instructionColumn config) /\
    (instructionColumn config <= Z.of_nat (length (label (parseLine line))) ->
     field = if truthy (label (parseLine line))
             then label (parseLine line) ++ [space] else []).
Proof.
  intros Hne. pose proof (parseLine_instruction_token line Hne) as Ht.
  exists (labelField (parseLine line) config).
  assert (He : endsNonWs (caseInstruction (instruction (parseLine line)) config)
               = true)
    by (apply isToken_endsNonWs; now rewrite isToken_caseInstruction).
  destruct (placeComment_keeps_prefix (labelField (parseLine line) config) _
              _ (parseLine line) config He (renderCode_prefix _ config Ht))
    as (tail & E).
  exists tail. rewrite formatLine_code by auto. split; [exact E|].
  unfold labelField, padEnd. split; intros Hlen.
  - assert (Hge : (Z.of_nat (length (label (parseLine line)))
                   >=? instructionColumn config) = false).
    { destruct (Z.geb_spec (Z.of_nat (length (label (parseLine line))))
                  (instructionColumn config)); [lia|reflexivity]. }
    rewrite Hge.
    destruct (label (parseLine line)) as [|c l] eqn:El; cbn [truthy].
    + cbn [app length]. rewrite repeat_length, Nat.sub_0_r.
      split; [reflexivity|]. cbn [length] in Hlen. lia.
    + rewrite length_app, repeat_length.
      split; [f_equal; f_equal; lia|]. lia.
  - assert (Hge : (Z.of_nat (length (label (parseLine line)))
                   >=? instructionColumn config) = true).
    { destruct (Z.geb_spec (Z.of_nat (length (label (parseLine line))))
                  (instructionColumn config)); [reflexivity|lia]. }
    rewrite Hge.
    destruct (label (parseLine line)) as [|c l] eqn:El; cbn [truthy];
      [|reflexivity].
    cbn [length app] in *.
    replace (Z.to_nat (instructionColumn config - Z.of_nat 0)) with 0%nat by lia.
    reflexivity.
Qed.

Lemma instruction_placement_witness :
  exists tail,
    formatLine (lit "loop mov r1,r2 ;copy") defaultConfig
    = (lit "loop" ++ repeat space 5) ++ lit "MOV" ++ tail.
Proof.
  destruct (instruction_placement (lit "loop mov r1,r2 ;copy") defaultConfig)
    as (field & tail & E & Hshort & _); [vm_compute; discriminate|].
  destruct Hshort as [Hfield Hlen]; [vm_compute; reflexivity|].
  exists tail. rewrite E. f_equal.
  rewrite Hfield. f_equal. f_equal.
  change (Z.of_nat (length field) = 9) in Hlen.
  change (length (label (parseLine (lit "loop mov r1,r2 ;copy")))) with 4%nat.
  lia.
Defined.

(** ** Lines that hold a label only *)

Lemma parseLine_shape_or_empty (line : str) :
  parsedShape (parseLine line) \/
  (label (parseLine line) = [] /\ instruction (parseLine line) = []
   /\ operands (parseLine line) = []).
Proof.
  destruct (allWs line) eqn:Eb.
  - right. now rewrite (parseLine_blank _ Eb).
  - destruct (commentLed line) eqn:Ecl.
    + right. now rewrite (parseLine_commentLed _ Ecl).
    + left. now apply (parseLine_code_line line defaultConfig).
Qed.

(** X5. A line that holds a label and nothing else is rendered as the bare
    label, whatever the configuration: no padding is left behind it. *)
Theorem formatLine_label_only (line : str) (config : FormatConfig) :
  label (parseLine line) <> [] ->
  instruction (parseLine line) = [] ->
  comment (parseLine line) = [] ->
  formatLine line config = label (parseLine line).
Proof.
  intros Hl Hi Hc. rewrite formatLine_code by auto.
  destruct (parseLine_shape_or_empty line) as [Hshape | (E & _)];
    [|contradiction].
  destruct Hshape as [t cmt Ht Hun | t u r cmt Ht Hun Hu Hr | t r cmt Ht Hk Hr];
    cbn [label instruction operands comment] in *.
  - subst cmt. unfold placeComment, renderCode.
    cbn [label instruction operands comment truthy].
    destruct (labelField_token (mkParsedLine t [] [] []) config
                (isToken_truthy _ Ht)) as (w & Hw & _ & ->).
    cbn [label]. rewrite trimEnd_app, Hw.
    apply endsNonWs_trimEnd. now apply isToken_endsNonWs.
  - subst u. discriminate Hu.
  - contradiction.
Qed.

Lemma formatLine_label_only_witness :
  formatLine (lit "  START   ") defaultConfig = lit "START".
Proof.
  apply (formatLine_label_only (lit "  START   ") defaultConfig);
    [vm_compute; discriminate | reflexivity | reflexivity].
Defined.

(** ** The fields of a parsed line *)

(** X6. The label and the instruction that [parseLine] returns are empty or
    single tokens: they hold no white space. *)
Theorem parseLine_fields_are_tokens (line : str) :
  (label (parseLine line) = [] \/ isToken (label (parseLine line)) = true) /\
  (instruction (parseLine line) = []
   \/ isToken (instruction (parseLine line)) = true).
Proof.
  destruct (parseLine_shape_or_empty line) as [Hshape | (El & Ei & _)];
    [|now rewrite El, Ei; auto].
  destruct Hshape; cbn [label instruction]; auto.
Qed.

(** X7. Operands never come without an instruction, and they are the
    remaining tokens separated by single spaces: splitting them into words and
    joining the words gives the operands back. *)
Theorem parseLine_operands_joined (line : str) :
  (operands (parseLine line) <> [] -> instruction (parseLine line) <> []) /\
  join [space] (words (operands (parseLine line))) = operands (parseLine line).
Proof.
  destruct (parseLine_shape_or_empty line) as [Hshape | (_ & _ & Eo)];
    [|rewrite Eo; split; [congruence|reflexivity]].
  destruct Hshape as [t cmt Ht Hun | t u r cmt Ht Hun Hu Hr | t r cmt Ht Hk Hr];
    cbn [label instruction operands].
  - split; [congruence|reflexivity].
  - split; [|now rewrite (words_join _ Hr)].
    intros _. now apply truthy_true, isToken_truthy.
  - split; [|now rewrite (words_join _ Hr)].
    intros _. now apply truthy_true, isToken_truthy.
Qed.

(** ** The comment field *)

Lemma trim_semicolon (r : str) :
  trim (semicolon :: r) = semicolon :: trimEnd r.
Proof.
  change (trim (semicolon :: r)) with (trimEnd (semicolon :: r)).
  rewrite trimEnd_cons. destruct (allWs r) eqn:Ea; [|reflexivity].
  now rewrite (trimEnd_allWs _ Ea).
Qed.

(** X8. [parseLine] finds a comment exactly on the lines that are
    comment-led or hold a semicolon. *)
Theorem parseLine_comment_iff (line : str) :
  comment (parseLine line) <> [] <->
  (commentLed line = true \/ In semicolon line).
Proof.
  destruct (split_at_semicolon line) as (code & rest & -> & Hc & Hr).
  rewrite (parseLine_split _ _ Hc Hr).
  destruct (commentLed (code ++ rest)) eqn:Ecl.
  - cbn [comment]. split; [auto|]. intros _ E.
    destruct (commentLed_true_trimStart _ Ecl) as (c & r & E' & _). congruence.
  - assert (Ecmt : comment (if allWs code
                            then mkParsedLine [] [] [] (trim rest)
                            else parseTokens (words code) (trim rest))
                   = trim rest).
    { destruct (allWs code); [reflexivity|apply parseTokens_comment]. }
    rewrite Ecmt. destruct Hr as [-> | (r & ->)].
    + rewrite app_nil_r. split; [intros H; now contradiction H|].
      intros [H | H]; [discriminate|contradiction].
    + split.
      * intros _. right. apply in_or_app. right. now left.
      * intros _ E. rewrite trim_semicolon in E. discriminate E.
Qed.

(** X9. On a line that is not comment-led the first semicolon opens the
    comment: the comment is the text from that semicolon to the end of the
    line, right-trimmed; later semicolons belong to it. *)
Theorem parseLine_comment_from_first_semicolon (code r : str) :
  ~ In semicolon code ->
  commentLed (code ++ semicolon :: r) = false ->
  comment (parseLine (code ++ semicolon :: r)) = semicolon :: trimEnd r.
Proof.
  intros Hc Ecl.
  rewrite (parseLine_split code (semicolon :: r) Hc) by eauto.
  rewrite Ecl.
  destruct (allWs code); [apply trim_semicolon|].
  rewrite parseTokens_comment. apply trim_semicolon.
Qed.

Lemma parseLine_comment_from_first_semicolon_witness :
  comment (parseLine (lit "foo equ 1 ;a;b  ")) = lit ";a;b".
Proof.
  apply (parseLine_comment_from_first_semicolon (lit "foo equ 1 ") (lit "a;b  "));
    [vm_compute; intuition discriminate | reflexivity].
Defined.

(** ** Formatting changes white space and letter case only *)

Lemma stripWs_cons (c : ascii) (r : str) :
  stripWs (c :: r) = if isWhiteSpace c then stripWs r else c :: stripWs r.
Proof. unfold stripWs. cbn [filter]. now destruct (isWhiteSpace c). Qed.

Lemma stripWs_app (a b : str) : stripWs (a ++ b) = stripWs a ++ stripWs b.
Proof. apply filter_app. Qed.

Lemma stripWs_allWs (w : str) : allWs w = true -> stripWs w = [].
Proof.
  induction w as [|c w IH]; [reflexivity|].
  cbn [allWs forallb]. intros H. apply andb_true_iff in H as [Hc Hw].
  rewrite stripWs_cons, Hc. now apply IH.
Qed.

Lemma stripWs_token (t : str) : isToken t = true -> stripWs t = t.
Proof.
  unfold isToken. intros H. apply andb_true_iff in H as [_ H].
  induction t as [|c t IH]; [reflexivity|].
  cbn [forallb] in H. apply andb_true_iff in H as [Hc Ht].
  apply negb_true_iff in Hc. rewrite stripWs_cons, Hc. now rewrite IH.
Qed.

Lemma stripWs_trimEnd (s : str) : stripWs (trimEnd s) = stripWs s.
Proof.
  destruct (trimEnd_split s) as (w & Hw & E). rewrite E at 2.
  now rewrite stripWs_app, (stripWs_allWs _ Hw), app_nil_r.
Qed.

Lemma stripWs_trimStart (s : str) : stripWs (trimStart s) = stripWs s.
Proof.
  destruct (trimStart_split s) as (w & Hw & E). rewrite E at 2.
  now rewrite stripWs_app, (stripWs_allWs _ Hw).
Qed.

Lemma stripWs_trim (s : str) : stripWs (trim s) = stripWs s.
Proof. unfold trim. now rewrite stripWs_trimEnd, stripWs_trimStart. Qed.

Lemma stripWs_replaceCommaStar (s : str) (k : bool) :
  stripWs (replaceCommaStar k s) = stripWs s.
Proof.
  revert k. induction s as [|c r IH]; intros k; [reflexivity|].
  destruct (char_cases c) as [-> | [W | [E W]]].
  - rewrite replaceCommaStar_comma, !stripWs_cons, comma_not_ws, space_ws.
    now rewrite IH.
  - rewrite stripWs_cons, W. destruct k.
    + rewrite (replaceCommaStar_ws_skip _ _ W). apply IH.
    + rewrite (replaceCommaStar_ws_keep _ _ W), stripWs_cons, W. apply IH.
  - rewrite (replaceCommaStar_other _ _ _ E W), !stripWs_cons, W.
    now rewrite IH.
Qed.

Lemma stripWs_formatOperands (ops : str) (config : FormatConfig) :
  stripWs (formatOperands ops config) = stripWs ops.
Proof.
  destruct (spaceAfterComma config) eqn:E.
  - rewrite (formatOperands_spaced _ _ E). apply stripWs_replaceCommaStar.
  - now rewrite (formatOperands_plain _ _ E).
Qed.

(** X10. [formatOperands] inserts and removes white space only: without
    their white characters the operands are as they were. *)
Theorem formatOperands_content (ops : str) (config : FormatConfig) :
  stripWs (formatOperands ops config) = stripWs ops.
Proof. exact (stripWs_formatOperands ops config). Qed.

Lemma stripWs_toUpperCase (s : str) :
  stripWs (toUpperCase s) = toUpperCase (stripWs s).
Proof.
  induction s as [|c s IH]; [reflexivity|].
  cbn [toUpperCase map]. rewrite !stripWs_cons, toUpperChar_ws.
  destruct (isWhiteSpace c); [exact IH|].
  cbn [toUpperCase map]. f_equal. exact IH.
Qed.

Lemma toUpperCase_app (a b : str) :
  toUpperCase (a ++ b) = toUpperCase a ++ toUpperCase b.
Proof. apply map_app. Qed.

Lemma concat_consHead (c : ascii) (l : list str) :
  concat (consHead c l) = c :: concat l.
Proof. destruct l; reflexivity. Qed.

Lemma concat_words (s : str) : concat (words s) = stripWs s.
Proof.
  induction s as [|c r IH]; [reflexivity|].
  rewrite stripWs_cons. destruct (isWhiteSpace c) eqn:W.
  - now rewrite (words_ws_cons _ _ W).
  - rewrite (words_nonws_cons _ _ W), <- IH.
    destruct (startsWs r); [reflexivity|].
    destruct r; [reflexivity|apply concat_consHead].
Qed.

Lemma stripWs_join (r : list str) :
  Forall (fun t => isToken t = true) r -> stripWs (join [space] r) = concat r.
Proof.
  intros H. rewrite <- concat_words. now rewrite (words_join _ H).
Qed.

Lemma stripWs_labelField (parsed : ParsedLine) (config : FormatConfig) :
  stripWs (labelField parsed config) = stripWs (label parsed).
Proof.
  unfold labelField, padEnd.
  destruct (label parsed) as [|c l]; cbn [truthy].
  - cbn [app]. apply stripWs_allWs, allWs_repeat_space.
  - destruct (_ >=? _); rewrite stripWs_app.
    + now rewrite app_nil_r.
    + now rewrite (stripWs_allWs _ (allWs_repeat_space _)), app_nil_r.
Qed.

Lemma stripWs_renderCode (parsed : ParsedLine) (config : FormatConfig) :
  stripWs (renderCode parsed config)
  = stripWs (label parsed)
    ++ stripWs (caseInstruction (instruction parsed) config)
    ++ stripWs (operands parsed).
Proof.
  unfold renderCode.
  assert (Hf : stripWs (if truthy (instruction parsed)
                        then labelField parsed config
                             ++ caseInstruction (instruction parsed) config
                        else labelField parsed config)
               = stripWs (label parsed)
                 ++ stripWs (caseInstruction (instruction parsed) config)).
  { destruct (instruction parsed); cbn [truthy].
    - now rewrite stripWs_labelField, app_nil_r.
    - now rewrite stripWs_app, stripWs_labelField. }
  cbv zeta. destruct (operands parsed) as [|c o] eqn:Eo; cbn [truthy].
  - rewrite app_nil_r. exact Hf.
  - rewrite !stripWs_app, stripWs_trimEnd, stripWs_formatOperands.
    change (stripWs [space]) with (@nil ascii).
    rewrite app_nil_r, app_assoc. f_equal. exact Hf.
Qed.

Lemma stripWs_placeComment (formatted : str) (parsed : ParsedLine)
    (config : FormatConfig) :
  stripWs (placeComment formatted parsed config)
  = stripWs formatted ++ stripWs (comment parsed).
Proof.
  unfold placeComment. rewrite stripWs_trimEnd.
  destruct (comment parsed) as [|c r]; cbn [truthy].
  - now rewrite app_nil_r.
  - destruct (_ <? _); unfold padEnd; rewrite !stripWs_app, stripWs_trimEnd.
    + now rewrite (stripWs_allWs _ (allWs_repeat_space _)), app_nil_r.
    + reflexivity.
Qed.

Lemma parseTokens_content (tokens : list str) (cmt : str) :
  Forall (fun t => isToken t = true) tokens ->
  stripWs (label (parseTokens tokens cmt))
  ++ stripWs (instruction (parseTokens tokens cmt))
  ++ stripWs (operands (parseTokens tokens cmt))
  = concat tokens.
Proof.
  intros H. destruct tokens as [|t [|u r]]; [reflexivity| |].
  - inversion H as [|? ? Ht _]; subst. rewrite parseTokens_one.
    destruct (isInstOrDir _); cbn [label instruction operands concat];
      rewrite (stripWs_token _ Ht); now rewrite ?app_nil_r.
  - inversion H as [|? ? Ht Hrest]; subst.
    inversion Hrest as [|? ? Hu Hr]; subst. rewrite parseTokens_many.
    destruct (isInstOrDir _); cbn [label instruction operands].
    + rewrite (stripWs_token _ Ht), (stripWs_join _ Hrest). reflexivity.
    + rewrite (stripWs_token _ Ht), (stripWs_token _ Hu), (stripWs_join _ Hr).
      reflexivity.
Qed.

Lemma stripWs_parseLine (line : str) :
  stripWs (label (parseLine line))
  ++ stripWs (instruction (parseLine line))
  ++ stripWs (operands (parseLine line))
  ++ stripWs (comment (parseLine line))
  = stripWs line.
Proof.
  destruct (split_at_semicolon line) as (code & rest & -> & Hc & Hr).
  rewrite (parseLine_split _ _ Hc Hr).
  destruct (commentLed (code ++ rest)).
  - cbn [label instruction operands comment app]. apply stripWs_trimStart.
  - rewrite stripWs_app. destruct (allWs code) eqn:Ea.
    + cbn [label instruction operands comment app].
      now rewrite stripWs_trim, (stripWs_allWs _ Ea).
    + rewrite parseTokens_comment, stripWs_trim, !app_assoc. f_equal.
      rewrite <- app_assoc, <- (concat_words code).
      apply parseTokens_content, words_tokens.
Qed.

(** X11. [parseLine] drops white space and nothing else: the four fields,
    without their white characters and put end to end, are the line without
    its white characters. *)
Theorem parseLine_content (line : str) :
  stripWs (label (parseLine line))
  ++ stripWs (instruction (parseLine line))
  ++ stripWs (operands (parseLine line))
  ++ stripWs (comment (parseLine line))
  = stripWs line.
Proof. exact (stripWs_parseLine line). Qed.

Lemma formatLine_content_fields (line : str) (config : FormatConfig) :
  stripWs (formatLine line config)
  = stripWs (label (parseLine line))
    ++ stripWs (caseInstruction (instruction (parseLine line)) config)
    ++ stripWs (operands (parseLine line))
    ++ stripWs (comment (parseLine line)).
Proof.
  destruct (formatLine_kinds line config)
    as [[Eb E] | [(Eb & Ecl & w & Hw & E) | (Eb & Ecl & E)]]; rewrite E.
  - now rewrite (parseLine_blank _ Eb).
  - rewrite (parseLine_commentLed _ Ecl). cbn [label instruction operands comment].
    now rewrite stripWs_app, (stripWs_allWs _ Hw).
  - rewrite stripWs_placeComment, stripWs_renderCode. now rewrite <- !app_assoc.
Qed.

Lemma toUpperCase_stripWs_caseInstruction (inst : str) (config : FormatConfig) :
  toUpperCase (stripWs (caseInstruction inst config))
  = toUpperCase (stripWs inst).
Proof.
  destruct (caseInstruction_cases inst config) as [-> | ->]; [reflexivity|].
  now rewrite stripWs_toUpperCase, toUpperCase_idem.
Qed.

(** X12. Formatting changes white space and letter case only: without
    their white characters and in upper case, the formatted line and the
    original line are the same text. *)
Theorem formatLine_content_upper (line : str) (config : FormatConfig) :
  toUpperCase (stripWs (formatLine line config)) = toUpperCase (stripWs line).
Proof.
  rewrite formatLine_content_fields, <- (stripWs_parseLine line).
  rewrite !toUpperCase_app. now rewrite toUpperCase_stripWs_caseInstruction.
Qed.

Lemma caseInstruction_off (inst : str) (config : FormatConfig) :
  uppercaseInstructions config = false ->
  uppercaseDirectives config = false ->
  caseInstruction inst config = inst.
Proof.
  intros Hi Hd. unfold caseInstruction. now rewrite Hi, Hd, !andb_false_r.
Qed.

(** X13. With both casing switches off, formatting changes white space
    only. *)
Theorem formatLine_content_exact (line : str) (config : FormatConfig) :
  uppercaseInstructions config = false ->
  uppercaseDirectives config = false ->
  stripWs (formatLine line config) = stripWs line.
Proof.
  intros Hi Hd.
  rewrite formatLine_content_fields, (caseInstruction_off _ _ Hi Hd).
  apply stripWs_parseLine.
Qed.

Lemma formatLine_content_exact_witness :
  stripWs (formatLine (lit "loop  mov r1,r2 ;c d")
             (mkFormatConfig 0 9 18 40 false false true))
  = lit "loopmovr1,r2;cd".
Proof.
  rewrite (formatLine_content_exact (lit "loop  mov r1,r2 ;c d")
             (mkFormatConfig 0 9 18 40 false false true));
    reflexivity.
Defined.

(** ** The operands after formatting *)

(** X14. [formatOperands] is idempotent, for every operand text. *)
Theorem formatOperands_idempotent (ops : str) (config : FormatConfig) :
  formatOperands (formatOperands ops config) config = formatOperands ops config.
Proof.
  destruct (spaceAfterComma config) eqn:E.
  - rewrite !(formatOperands_spaced _ _ E). apply replaceCommaStar_idem.
  - now rewrite !(formatOperands_plain _ _ E).
Qed.

Lemma startsWs_replaceCommaStar_skip (s : str) :
  startsWs (replaceCommaStar true s) = false.
Proof.
  induction s as [|c r IH]; [reflexivity|].
  destruct (char_cases c) as [-> | [W | [E W]]].
  - reflexivity.
  - now rewrite (replaceCommaStar_ws_skip _ _ W).
  - rewrite (replaceCommaStar_other _ _ _ E W). exact W.
Qed.

Lemma commaSpaced_replaceCommaStar (s : str) (k : bool) :
  commaSpaced (replaceCommaStar k s) = true.
Proof.
  revert k. induction s as [|c r IH]; intros k; [reflexivity|].
  destruct (char_cases c) as [-> | [W | [E W]]].
  - rewrite replaceCommaStar_comma. cbn [commaSpaced].
    rewrite !Ascii.eqb_refl, startsWs_replaceCommaStar_skip.
    replace (Ascii.eqb space comma) with false by reflexivity.
    cbn [negb andb]. apply IH.
  - destruct k.
    + rewrite (replaceCommaStar_ws_skip _ _ W). apply IH.
    + rewrite (replaceCommaStar_ws_keep _ _ W). cbn [commaSpaced].
      destruct (Ascii.eqb c comma) eqn:E.
      * apply Ascii.eqb_eq in E. subst c. discriminate W.
      * cbn [andb]. apply IH.
  - rewrite (replaceCommaStar_other _ _ _ E W). cbn [commaSpaced].
    rewrite E. cbn [andb]. apply IH.
Qed.

(** X15. With [spaceAfterComma] on, every comma of the formatted operands
    is followed by exactly one space and then by a character that is not
    white, or by the end of the operands. *)
Theorem formatOperands_commaSpaced (ops : str) (config : FormatConfig) :
  spaceAfterComma config = true ->
  commaSpaced (formatOperands ops config) = true.
Proof.
  intros E. rewrite (formatOperands_spaced _ _ E).
  apply commaSpaced_replaceCommaStar.
Qed.

Lemma formatOperands_commaSpaced_witness :
  formatOperands (lit "r1,r2 ,   r3,") defaultConfig = lit "r1, r2 , r3, " /\
  commaSpaced (lit "r1, r2 , r3, ") = true.
Proof.
  split; [reflexivity|].
  apply (formatOperands_commaSpaced (lit "r1,r2 ,   r3,") defaultConfig).
  reflexivity.
Defined.

(** * Further properties of the drivers *)

(** ** The document driver *)

Lemma formatFrom_some_prefix (config : FormatConfig) (token : nat -> bool)
    (lines : list str) :
  forall i, exists k,
    (k <= length lines)%nat /\
    formatFrom token config i lines
    = map (fun e => (fst e, formatLine (snd e) config))
        (filter (changed config) (firstn k (indexedFrom i lines))).
Proof.
  induction lines as [|text rest IH]; intros i.
  - exists 0%nat. split; [lia|reflexivity].
  - cbn [formatFrom]. destruct (token i) eqn:Et.
    + exists 0%nat. split; [lia|reflexivity].
    + destruct (IH (S i)) as (k & Hk & E). exists (S k).
      split; [simpl; lia|].
      rewrite indexedFrom_cons. cbn [firstn filter]. unfold changed at 1.
      cbn [snd fst]. rewrite E.
      destruct (negb (streq (formatLine text config) text)); reflexivity.
Qed.

(** X16. Whatever the cancellation token answers at its polls, the driver
    returns the edits of the first [k] lines for some [k]: an initial segment
    of what the uncancelled run returns, never an edit out of order or from
    beyond a skipped line. *)
Theorem any_cancellation_gives_prefix (document : list str)
    (config : FormatConfig) (token : nat -> bool) :
  exists k,
    (k <= length document)%nat /\
    provideDocumentFormattingEdits document config token
    = editsOfPrefix config k document.
Proof.
  unfold provideDocumentFormattingEdits, editsOfPrefix.
  apply formatFrom_some_prefix.
Qed.

Lemma formatFrom_all (config : FormatConfig) (i : nat) (lines : list str) :
  formatFrom neverCancelled config i lines
  = map (fun e => (fst e, formatLine (snd e) config))
      (filter (changed config) (indexedFrom i lines)).
Proof.
  rewrite (formatFrom_prefix config neverCancelled lines i (length lines));
    [|lia|reflexivity|lia].
  do 2 f_equal. apply firstn_all2. unfold indexedFrom.
  rewrite length_combine, length_seq. lia.
Qed.

Lemma In_indexedFrom (document : list str) :
  forall i j text,
    In (j, text) (indexedFrom i document) <->
    (i <= j)%nat /\ nth_error document (j - i) = Some text.
Proof.
  induction document as [|x document IH]; intros i j text.
  - split; [contradiction|]. intros [_ H]. now destruct (j - i)%nat.
  - rewrite indexedFrom_cons. cbn [In]. rewrite IH. split.
    + intros [H | [Hle H]].
      * injection H as <- <-. rewrite Nat.sub_diag. split; [lia|reflexivity].
      * split; [lia|]. replace (j - i)%nat with (S (j - S i)) by lia. exact H.
    + intros [Hle H]. destruct (Nat.eq_dec i j) as [<- | Hne].
      * rewrite Nat.sub_diag in H. injection H as <-. now left.
      * right. split; [lia|].
        replace (j - i)%nat with (S (j - S i)) in H by lia. exact H.
Qed.

(** X17. The uncancelled driver returns an edit for line [i] exactly when
    formatting changes that line, and the edit carries the formatted text:
    unchanged lines produce no entry and no changed line is missed. *)
Theorem edit_iff_line_changes (document : list str) (config : FormatConfig)
    (i : nat) (text : str) :
  In (i, text) (provideDocumentFormattingEdits document config neverCancelled)
  <->
  exists original,
    nth_error document i = Some original /\
    text = formatLine original config /\ text <> original.
Proof.
  unfold provideDocumentFormattingEdits. rewrite formatFrom_all, in_map_iff.
  split.
  - intros ([j original] & E & Hin). cbn [fst snd] in E. injection E as -> <-.
    apply filter_In in Hin as [Hin Hch].
    apply In_indexedFrom in Hin as [_ Hnth]. rewrite Nat.sub_0_r in Hnth.
    exists original. repeat split; trivial.
    unfold changed in Hch. cbn [snd] in Hch.
    apply negb_true_iff, streq_neq in Hch. exact Hch.
  - intros (original & Hnth & -> & Hne). exists (i, original).
    split; [reflexivity|]. apply filter_In. split.
    + apply In_indexedFrom. rewrite Nat.sub_0_r. split; [lia|exact Hnth].
    + unfold changed. cbn [snd]. now apply negb_true_iff, streq_neq.
Qed.

Lemma formatFrom_formatted (config : FormatConfig) (token : nat -> bool)
    (lines : list str) :
  forall i,
    formatFrom token config i (map (fun l => formatLine l config) lines) = [].
Proof.
  induction lines as [|text rest IH]; intros i; [reflexivity|].
  cbn [map formatFrom]. destruct (token i); [reflexivity|].
  rewrite formatLine_again, streq_refl. cbn [negb]. apply IH.
Qed.

(** X18. A document whose lines are all formatted gets no edit: running
    the driver on the result of a formatting pass returns the empty list. *)
Theorem formatted_document_needs_no_edit (document : list str)
    (config : FormatConfig) (token : nat -> bool) :
  provideDocumentFormattingEdits
    (map (fun l => formatLine l config) document) config token = [].
Proof. apply formatFrom_formatted. Qed.

Lemma formatFrom_nil_iff (config : FormatConfig) (lines : list str) :
  forall i,
    formatFrom neverCancelled config i lines = [] <->
    Forall (fun l => formatLine l config = l) lines.
Proof.
  induction lines as [|text rest IH]; intros i.
  - split; [constructor|reflexivity].
  - cbn [formatFrom neverCancelled].
    destruct (streq (formatLine text config) text) eqn:E; cbn [negb].
    + apply streq_eq in E. rewrite IH. split.
      * now constructor.
      * intros H. now inversion H.
    + apply streq_neq in E. split; [discriminate|].
      intros H. inversion H. contradiction.
Qed.

(** X19. The uncancelled driver returns no edit exactly when every line of
    the document is already in its formatted form. *)
Theorem no_edit_iff_formatted (document : list str) (config : FormatConfig) :
  provideDocumentFormattingEdits document config neverCancelled = [] <->
  Forall (fun l => formatLine l config = l) document.
Proof. apply formatFrom_nil_iff. Qed.

(** ** The range driver *)

Lemma skipn_nth_error (document : list str) :
  forall i text,
    nth_error document i = Some text ->
    skipn i document = text :: skipn (S i) document.
Proof.
  induction document as [|x document IH]; intros [|i] text H;
    try discriminate.
  - injection H as ->. reflexivity.
  - cbn [nth_error] in H. change (skipn (S i) (x :: document))
      with (skipn i document). rewrite (IH i text H). reflexivity.
Qed.

(** On a range inside the document the range loop is the document loop on
    the lines of the range, numbered from the start of the range. *)
Lemma rangeFrom_sub (config : FormatConfig) (token : nat -> bool)
    (document : list str) (n : nat) :
  forall i,
    (i + n <= length document)%nat ->
    rangeFrom token config document i n
    = Some (formatFrom token config i (firstn n (skipn i document))).
Proof.
  induction n as [|n IH]; intros i Hlen; [reflexivity|].
  destruct (nth_error document i) as [text|] eqn:Hnth.
  - cbn [rangeFrom]. unfold lineAt. rewrite Hnth, (IH (S i)) by lia.
    rewrite (skipn_nth_error _ _ _ Hnth). cbn [firstn formatFrom].
    destruct (token i); [reflexivity|].
    destruct (negb (streq (formatLine text config) text)); reflexivity.
  - apply nth_error_None in Hnth. lia.
Qed.

(** X20. Range formatting over the whole document, from line 0 to the
    last line, returns what document formatting returns, under every
    cancellation token. *)
Theorem whole_range_is_document (document : list str) (config : FormatConfig)
    (token : nat -> bool) :
  document <> [] ->
  provideDocumentRangeFormattingEdits document 0 (length document - 1)
    config token
  = Some (provideDocumentFormattingEdits document config token).
Proof.
  intros Hne. unfold provideDocumentRangeFormattingEdits,
    provideDocumentFormattingEdits.
  assert (Hlen : (0 < length document)%nat)
    by (destruct document; [contradiction|simpl; lia]).
  replace (S (length document - 1) - 0)%nat with (length document) by lia.
  rewrite rangeFrom_sub by lia.
  cbn [skipn]. now rewrite firstn_all.
Qed.

Lemma whole_range_is_document_witness :
  provideDocumentRangeFormattingEdits
    [lit "loop mov r1,r2"; lit "* note"; lit "a r1,r2"] 0 2 defaultConfig
    neverCancelled
  = Some [(0%nat, lit "loop     MOV r1, r2"); (2%nat, lit "         A r1, r2")].
Proof.
  change 2%nat
    with (length [lit "loop mov r1,r2"; lit "* note"; lit "a r1,r2"] - 1)%nat
    at 1.
  rewrite (whole_range_is_document
             [lit "loop mov r1,r2"; lit "* note"; lit "a r1,r2"]
             defaultConfig neverCancelled); [reflexivity|discriminate].
Defined.

Lemma filter_map_fst (p : TextEdit -> bool) (f : nat * str -> TextEdit)
    (l : list (nat * str)) :
  filter p (map f l) = map f (filter (fun e => p (f e)) l).
Proof.
  induction l as [|x l IH]; [reflexivity|].
  cbn [map filter]. rewrite IH. now destruct (p (f x)).
Qed.

Lemma filter_swap (p q : nat * str -> bool) (l : list (nat * str)) :
  filter p (filter q l) = filter q (filter p l).
Proof.
  induction l as [|x l IH]; [reflexivity|].
  cbn [filter]. destruct (p x) eqn:Ep, (q x) eqn:Eq; cbn [filter];
    rewrite ?Ep, ?Eq, IH; reflexivity.
Qed.

Lemma indexedFrom_nil (i : nat) : indexedFrom i [] = [].
Proof. reflexivity. Qed.

Lemma filter_inRange_from (s e : nat) (document : list str) :
  forall i, (s <= i)%nat ->
    filter (inRange s e) (indexedFrom i document)
    = indexedFrom i (firstn (S e - i) document).
Proof.
  induction document as [|x document IH]; intros i Hi.
  - now rewrite firstn_nil.
  - rewrite indexedFrom_cons. cbn [filter]. unfold inRange at 1. cbn [fst].
    assert (Hs : (s <=? i)%nat = true) by (apply Nat.leb_le; lia).
    rewrite Hs, (IH (S i)) by lia. cbn [andb].
    destruct (i <=? e)%nat eqn:He.
    + apply Nat.leb_le in He.
      replace (S e - i)%nat with (S (S e - S i)) by lia.
      cbn [firstn]. now rewrite indexedFrom_cons.
    + apply Nat.leb_gt in He.
      replace (S e - i)%nat with 0%nat by lia.
      replace (S e - S i)%nat with 0%nat by lia.
      reflexivity.
Qed.

Lemma filter_inRange_before (s e : nat) (document : list str) :
  forall i, (i <= s)%nat ->
    filter (inRange s e) (indexedFrom i document)
    = indexedFrom s (firstn (S e - s) (skipn (s - i) document)).
Proof.
  induction document as [|x document IH]; intros i Hi.
  - now rewrite skipn_nil, firstn_nil.
  - destruct (Nat.eq_dec i s) as [-> | Hne].
    + rewrite Nat.sub_diag. cbn [skipn]. now apply filter_inRange_from.
    + rewrite indexedFrom_cons. cbn [filter]. unfold inRange at 1. cbn [fst].
      assert (Hs : (s <=? i)%nat = false) by (apply Nat.leb_gt; lia).
      rewrite Hs. cbn [andb]. rewrite (IH (S i)) by lia.
      replace (s - i)%nat with (S (s - S i)) by lia. reflexivity.
Qed.

(** X21. On a range that lies inside the document, uncancelled range
    formatting returns exactly those edits of document formatting whose line
    numbers lie in the range, in the same order. *)
Theorem range_edits_are_document_edits (document : list str)
    (startLine endLine : nat) (config : FormatConfig) :
  (startLine <= endLine)%nat ->
  (endLine < length document)%nat ->
  provideDocumentRangeFormattingEdits document startLine endLine config
    neverCancelled
  = Some (filter (inRange startLine endLine)
            (provideDocumentFormattingEdits document config neverCancelled)).
Proof.
  intros Hse Hlen.
  unfold provideDocumentRangeFormattingEdits, provideDocumentFormattingEdits.
  rewrite rangeFrom_sub by lia. f_equal.
  rewrite !formatFrom_all, filter_map_fst.
  change (fun e : nat * str =>
            inRange startLine endLine (fst e, formatLine (snd e) config))
    with (inRange startLine endLine).
  rewrite filter_swap, (filter_inRange_before _ _ _ 0) by lia.
  now rewrite Nat.sub_0_r.
Qed.

Lemma range_edits_are_document_edits_witness :
  provideDocumentRangeFormattingEdits
    [lit "loop mov r1,r2"; lit "* note"; lit "a r1,r2"; lit "b  @x"] 1 2
    defaultConfig neverCancelled
  = Some [(2%nat, lit "         A r1, r2")].
Proof.
  rewrite (range_edits_are_document_edits
             [lit "loop mov r1,r2"; lit "* note"; lit "a r1,r2"; lit "b  @x"]
             1 2 defaultConfig); [reflexivity | lia | simpl; lia].
Defined.

(** * Further properties of the rendered line *)

(** X22. Every line that is not comment-led is formatted without trailing
    white space. *)
Theorem formatLine_right_trimmed (line : str) (config : FormatConfig) :
  commentLed line = false ->
  trimEnd (formatLine line config) = formatLine line config.
Proof.
  intros Ecl.
  destruct (formatLine_kinds line config)
    as [[Eb E] | [(Eb & Ecl' & _) | (Eb & _ & E)]]; [| congruence |].
  - rewrite E. reflexivity.
  - rewrite E. unfold placeComment. apply trimEnd_idem.
Qed.

Lemma formatLine_right_trimmed_witness :
  trimEnd (formatLine (lit "loop mov r1,r2   ") defaultConfig)
  = formatLine (lit "loop mov r1,r2   ") defaultConfig.
Proof.
  apply (formatLine_right_trimmed (lit "loop mov r1,r2   ") defaultConfig).
  reflexivity.
Defined.

(** ** The first token decides the shape of the parse *)

(** X23. On a line that is not comment-led, let [t] be the first word of
    the code before the first semicolon and [ts] the other words.  When [t],
    in upper case, is an instruction, a directive or dot-led, there is no
    label, [t] is the instruction and [ts] are the operands; otherwise [t] is
    the label, the first of [ts] (if any) the instruction and the rest the
    operands. *)
Theorem parseLine_by_first_word (code rest t : str) (ts : list str) :
  ~ In semicolon code ->
  (rest = [] \/ exists r, rest = semicolon :: r) ->
  commentLed (code ++ rest) = false ->
  words code = t :: ts ->
  parseLine (code ++ rest)
  = if isInstOrDir (toUpperCase t)
    then mkParsedLine [] t (join [space] ts) (trim rest)
    else mkParsedLine t (hd [] ts) (join [space] (tl ts)) (trim rest).
Proof.
  intros Hc Hr Ecl Hw. rewrite (parseLine_split _ _ Hc Hr), Ecl.
  assert (Ea : allWs code = false).
  { destruct (allWs code) eqn:Ea; [|reflexivity].
    apply words_allWs in Ea. congruence. }
  rewrite Ea, Hw. destruct ts as [|u r].
  - rewrite parseTokens_one. reflexivity.
  - rewrite parseTokens_many. reflexivity.
Qed.

Lemma parseLine_by_first_word_witness :
  parseLine (lit "  mov r1,  r2 ; x ")
  = mkParsedLine [] (lit "mov") (lit "r1, r2") (lit "; x") /\
  parseLine (lit "go mov r1")
  = mkParsedLine (lit "go") (lit "mov") (lit "r1") [].
Proof.
  split.
  - apply (parseLine_by_first_word (lit "  mov r1,  r2 ") (lit "; x ")
             (lit "mov") [lit "r1,"; lit "r2"]);
      [vm_compute; intuition discriminate | right; eexists; reflexivity
      | reflexivity | reflexivity].
  - apply (parseLine_by_first_word (lit "go mov r1") [] (lit "go")
             [lit "mov"; lit "r1"]);
      [vm_compute; intuition discriminate | now left
      | reflexivity | reflexivity].
Defined.

(** ** The two casing switches *)

Lemma tables_disjoint :
  forallb (fun d => negb (has INSTRUCTIONS d)) DIRECTIVES = true.
Proof. vm_compute. reflexivity. Qed.

Lemma has_In (set : list str) (s : str) : has set s = true <-> In s set.
Proof.
  unfold has. rewrite existsb_exists. split.
  - intros (m & Hin & E). apply streq_eq in E. now subst.
  - intros H. exists s. split; [exact H|apply streq_refl].
Qed.

Lemma directive_not_instruction (s : str) :
  has DIRECTIVES s = true -> has INSTRUCTIONS s = false.
Proof.
  intros H. apply has_In in H.
  pose proof tables_disjoint as Hall. rewrite forallb_forall in Hall.
  now apply negb_true_iff, Hall.
Qed.

(** X24. No word is both an instruction and a directive, so each known
    mnemonic obeys one switch only: with [uppercaseInstructions] off an
    instruction keeps its case whatever [uppercaseDirectives] says, and with
    [uppercaseDirectives] off a directive keeps its case whatever
    [uppercaseInstructions] says. *)
Theorem casing_switches_independent (inst : str) (config : FormatConfig) :
  (has INSTRUCTIONS (toUpperCase inst) = true ->
   uppercaseInstructions config = false ->
   caseInstruction inst config = inst) /\
  (has DIRECTIVES (toUpperCase inst) = true ->
   uppercaseDirectives config = false ->
   caseInstruction inst config = inst).
Proof.
  unfold caseInstruction. split; intros Hin Hoff.
  - rewrite Hoff, andb_false_r.
    destruct (has DIRECTIVES (toUpperCase inst)) eqn:Hd; [|reflexivity].
    apply directive_not_instruction in Hd. congruence.
  - rewrite (directive_not_instruction _ Hin), Hin, Hoff. reflexivity.
Qed.

Lemma casing_switches_independent_witness :
  caseInstruction (lit "mov") (mkFormatConfig 0 9 18 40 false true true)
    = lit "mov" /\
  caseInstruction (lit "equ") (mkFormatConfig 0 9 18 40 true false true)
    = lit "equ".
Proof.
  split.
  - destruct (casing_switches_independent (lit "mov")
                (mkFormatConfig 0 9 18 40 false true true)) as [H _].
    apply H; reflexivity.
  - destruct (casing_switches_independent (lit "equ")
                (mkFormatConfig 0 9 18 40 true false true)) as [_ H].
    apply H; reflexivity.
Defined.
